(** * Singleton<Type, Traits, DifferentiatingType> (singleton.h)

    A shallow embedding of the lazily created singleton of
    [src/singleton.h] and the properties of its state word [instance_].

    The body of [Singleton::get] is cut at its atomic operations: every
    call of [get()] is a small machine whose program counter names the
    next statement of the source, and a pool of such calls is run under an
    arbitrary schedule.  The operations on the single word [instance_] are
    interleaved one at a time (a sequentially consistent execution); the
    memory order each operation is issued with is kept in the trace. *)

From Stdlib Require Import ZArith List Bool Lia.
From stdpp Require Import base tactics decidable option list.
Import ListNotations.

(** ** Words, pointers and the marker *)

(** [subtle::AtomicWord] is [intptr_t]; [reinterpret_cast] between [Type*]
    and [AtomicWord] keeps the value, so a pointer is its word.  The
    source only compares and copies words, so their width plays no part. *)
Definition AtomicWord : Type := Z.

(** singleton.h:31 *)
Definition kBeingCreatedMarker : AtomicWord := 1%Z.

(** The test of singleton.h:168,
    [value != 0 && value != internal::kBeingCreatedMarker]. *)
Definition is_created (value : AtomicWord) : bool :=
  negb (value =? 0)%Z && negb (value =? kBeingCreatedMarker)%Z.

(** The three logical states the word encodes. *)
Inductive Lifecycle : Type :=
| Uncreated
| BeingCreated
| Created (addr : AtomicWord).

Definition lifecycle (value : AtomicWord) : Lifecycle :=
  if (value =? 0)%Z then Uncreated
  else if (value =? kBeingCreatedMarker)%Z then BeingCreated
  else Created value.

(** ** Instantiations, events and the program state *)

(** One [Singleton<Type, Traits, DifferentiatingType>] per
    [DifferentiatingType]; [Type] and [Traits] are fixed.  Each
    instantiation owns its static [instance_] (singleton.h:205,208-209). *)
Definition Tag : Type := nat.

(** What a call does to the world outside its locals, with the memory
    order the source asks for. *)
Inductive Op : Type :=
| OpAcquireLoad (value : AtomicWord)
| OpAcquireCAS (old_value new_value prev : AtomicWord)
| OpReleaseStore (value : AtomicWord)
| OpNew (newval : AtomicWord)
| OpDelete (x : AtomicWord).

Record Event : Type := mkEvent {
  ev_call : nat;
  ev_tag : Tag;
  ev_op : Op
}.

(** An entry of the AtExitManager: [OnExit] of one instantiation. *)
Inductive Callback : Type :=
| CbOnExit (g : Tag).

(** The traits of singleton.h:45-69, over the state [Heap] that the
    allocation functions act on. *)
Record SingletonTraits (Heap : Type) : Type := mkTraits {
  New : Heap -> AtomicWord * Heap;
  Delete : AtomicWord -> Heap -> Heap;
  kRegisterAtExit : bool
}.
Arguments New {Heap} _ _.
Arguments Delete {Heap} _ _ _.
Arguments kRegisterAtExit {Heap} _.
Arguments mkTraits {Heap} _ _ _.

(** [DefaultSingletonTraits<Type>] (singleton.h:46-69): [New] is
    [new Type()], [Delete] is [delete x], and [kRegisterAtExit] is
    [false].  The two operators of the C++ runtime are taken as given. *)
Definition DefaultSingletonTraits {Heap : Type}
    (operator_new : Heap -> AtomicWord * Heap)
    (operator_delete : AtomicWord -> Heap -> Heap) : SingletonTraits Heap :=
  mkTraits operator_new operator_delete false.

Record World (Heap : Type) : Type := mkWorld {
  instance_ : Tag -> AtomicWord;
  heap : Heap;
  at_exit : list Callback;
  trace : list Event
}.
Arguments instance_ {Heap} _ _.
Arguments heap {Heap} _.
Arguments at_exit {Heap} _.
Arguments trace {Heap} _.
Arguments mkWorld {Heap} _ _ _ _.

(** Where a call of [get()] stands: the statement it executes next. *)
Inductive pc : Type :=
| AtLoad                          (* singleton.h:167 *)
| AtCAS                           (* singleton.h:173 *)
| AtNew                           (* singleton.h:178 *)
| AtStore (newval : AtomicWord)   (* singleton.h:181 *)
| AtWait                          (* singleton.h:191 *)
| Returned (p : AtomicWord).      (* singleton.h:169, 187, 193 *)

Record Call : Type := mkCall {
  call_tag : Tag;
  call_pc : pc
}.

Inductive Action : Type :=
| Step (i : nat)
| Exit (g : Tag).

Section Singleton.

Context {Heap : Type}.
Variable Traits : SingletonTraits Heap.

Definition log (i : nat) (g : Tag) (o : Op) (w : World Heap) : World Heap :=
  mkWorld (instance_ w) (heap w) (at_exit w) (trace w ++ [mkEvent i g o]).

Definition set_instance (g : Tag) (value : AtomicWord) (w : World Heap)
    : World Heap :=
  mkWorld (fun g' => if decide (g' = g) then value else instance_ w g')
          (heap w) (at_exit w) (trace w).

(** Modelled from the spec: [subtle::Acquire_Load] of atomicops.h, which is
    not among the sources; an atomic read of the word with acquire
    ordering. *)
Definition Acquire_Load (i : nat) (g : Tag) (w : World Heap)
    : AtomicWord * World Heap :=
  let value := instance_ w g in
  (value, log i g (OpAcquireLoad value) w).

(** Modelled from the spec: [subtle::Acquire_CompareAndSwap] of
    atomicops.h; it updates the word only if it currently equals
    [old_value] and reports the value it found (singleton.h:173-174
    compares that report with 0). *)
Definition Acquire_CompareAndSwap (i : nat) (g : Tag)
    (old_value new_value : AtomicWord) (w : World Heap)
    : AtomicWord * World Heap :=
  let prev := instance_ w g in
  let w' := if (prev =? old_value)%Z then set_instance g new_value w else w in
  (prev, log i g (OpAcquireCAS old_value new_value prev) w').

(** Modelled from the spec: [subtle::Release_Store] of atomicops.h; an
    atomic write of the word with release ordering. *)
Definition Release_Store (i : nat) (g : Tag) (value : AtomicWord)
    (w : World Heap) : World Heap :=
  log i g (OpReleaseStore value) (set_instance g value w).

(** The call [Traits::New()] of singleton.h:178. *)
Definition call_New (i : nat) (g : Tag) (w : World Heap)
    : AtomicWord * World Heap :=
  let '(newval, h) := New Traits (heap w) in
  (newval,
   log i g (OpNew newval) (mkWorld (instance_ w) h (at_exit w) (trace w))).

(** Modelled from the spec: one turn of the loop of
    [internal::WaitForInstance], declared at singleton.h:35 and defined in
    a file that is not among the sources.  The word is re-loaded with
    acquire ordering; the loop is left with the address once the word
    holds [Created(addr)], and goes round again otherwise. *)
Definition WaitForInstance (i : nat) (g : Tag) (w : World Heap)
    : pc * World Heap :=
  let '(value, w1) := Acquire_Load i g w in
  if is_created value then (Returned value, w1) else (AtWait, w1).

(** [Singleton::get] (singleton.h:158-194), one atomic operation at a
    time.  The registration of singleton.h:184-185 is commented out in the
    source, so the store is followed by the return. *)
Definition get_step (i : nat) (g : Tag) (c : pc) (w : World Heap)
    : pc * World Heap :=
  match c with
  | AtLoad =>
      let '(value, w1) := Acquire_Load i g w in
      if is_created value then (Returned value, w1) else (AtCAS, w1)
  | AtCAS =>
      let '(prev, w1) :=
        Acquire_CompareAndSwap i g 0%Z kBeingCreatedMarker w in
      if (prev =? 0)%Z then (AtNew, w1) else (AtWait, w1)
  | AtNew =>
      let '(newval, w1) := call_New i g w in
      (AtStore newval, w1)
  | AtStore newval =>
      (Returned newval, Release_Store i g newval w)
  | AtWait => WaitForInstance i g w
  | Returned p => (Returned p, w)
  end.

(** [Singleton::OnExit] (singleton.h:199-204): both statements of the body
    are commented out. *)
Definition OnExit (g : Tag) (w : World Heap) : World Heap := w.

(** A pool of calls of [get()] over one world. *)
Definition State : Type := World Heap * list Call.

Definition step_call (i : nat) (st : State) : State :=
  match st.2 !! i with
  | Some c =>
      let '(c', w') := get_step i (call_tag c) (call_pc c) st.1 in
      (w', <[i := mkCall (call_tag c) c']> st.2)
  | None => st
  end.

Definition exec (st : State) (a : Action) : State :=
  match a with
  | Step i => step_call i st
  | Exit g => (OnExit g st.1, st.2)
  end.

Definition run (sched : list Action) (st : State) : State :=
  fold_left exec sched st.

(** One call of [get()] run alone until it returns; the wait loop is the
    only place where it can fail to. *)
Fixpoint get_loop (fuel : nat) (i : nat) (g : Tag) (c : pc) (w : World Heap)
    : option (AtomicWord * World Heap) :=
  match c with
  | Returned p => Some (p, w)
  | _ =>
      match fuel with
      | O => None
      | S fuel' =>
          let '(c', w') := get_step i g c w in
          get_loop fuel' i g c' w'
      end
  end.

Definition get (fuel : nat) (i : nat) (g : Tag) (w : World Heap)
    : option (AtomicWord * World Heap) :=
  get_loop fuel i g AtLoad w.

(** The process at start-up: every [instance_] is 0 (singleton.h:209),
    nothing is registered, nothing has happened. *)
Definition fresh (h : Heap) : World Heap :=
  mkWorld (fun _ => 0%Z) h [] [].

Definition spawn (tags : list Tag) : list Call :=
  map (fun g => mkCall g AtLoad) tags.

Definition init (h : Heap) (tags : list Tag) : State :=
  (fresh h, spawn tags).

(** ** Observations on traces and pools *)

Definition is_new (g : Tag) (e : Event) : bool :=
  match ev_op e with
  | OpNew _ => Nat.eqb (ev_tag e) g
  | _ => false
  end.

Definition is_delete (e : Event) : bool :=
  match ev_op e with
  | OpDelete _ => true
  | _ => false
  end.

Fixpoint count_ev (f : Event -> bool) (tr : list Event) : nat :=
  match tr with
  | [] => 0
  | e :: tr' => (if f e then 1 else 0) + count_ev f tr'
  end.

(** How often [Traits::New()] was called for instantiation [g]. *)
Definition news (g : Tag) (w : World Heap) : nat :=
  count_ev (is_new g) (trace w).

(** The events of one call. *)
Definition events_of (i : nat) (tr : list Event) : list Op :=
  map ev_op (List.filter (fun e => Nat.eqb (ev_call e) i) tr).

Definition is_returned (c : pc) : bool :=
  match c with
  | Returned _ => true
  | _ => false
  end.

Definition all_returned (ts : list Call) : bool :=
  forallb (fun c => is_returned (call_pc c)) ts.

Definition creating (c : pc) : bool :=
  match c with
  | AtNew | AtStore _ => true
  | _ => false
  end.

(** A compare-and-swap that found the value it expected and wrote. *)
Definition is_win (g : Tag) (e : Event) : bool :=
  match ev_op e with
  | OpAcquireCAS old_value _ prev =>
      Nat.eqb (ev_tag e) g && (prev =? old_value)%Z
  | _ => false
  end.

Definition wins (g : Tag) (w : World Heap) : nat :=
  count_ev (is_win g) (trace w).

(** The words ever written by a release-store of instantiation [g]. *)
Fixpoint stored_values (g : Tag) (tr : list Event) : list AtomicWord :=
  match tr with
  | [] => []
  | e :: tr' =>
      match ev_op e with
      | OpReleaseStore v =>
          if Nat.eqb (ev_tag e) g then v :: stored_values g tr'
          else stored_values g tr'
      | _ => stored_values g tr'
      end
  end.

(** The result of call [i], once it has returned. *)
Definition result (ts : list Call) (i : nat) : option AtomicWord :=
  match ts !! i with
  | Some (mkCall _ (Returned p)) => Some p
  | _ => None
  end.

(** ** Schedules *)

Definition steps_of (i : nat) (a : Action) : bool :=
  match a with
  | Step j => Nat.eqb j i
  | Exit _ => false
  end.

(** Call [i] is not scheduled in [sched]. *)
Definition idle (i : nat) (sched : list Action) : bool :=
  forallb (fun a => negb (steps_of i a)) sched.

(** Every one of the first [n] calls is scheduled in [sched]. *)
Definition covers (n : nat) (sched : list Action) : bool :=
  forallb (fun i => existsb (steps_of i) sched) (seq 0 n).

Definition is_exit (a : Action) : bool :=
  match a with
  | Exit _ => true
  | Step _ => false
  end.

Definition without_exits (sched : list Action) : list Action :=
  List.filter (fun a => negb (is_exit a)) sched.

(** [k] calls of [get()] one after the other, numbered from [i]. *)
Fixpoint get_repeat (fuel : nat) (k : nat) (i : nat) (g : Tag)
    (w : World Heap) : option (list AtomicWord * World Heap) :=
  match k with
  | O => Some ([], w)
  | S k' =>
      match get fuel i g w with
      | Some (p, w1) =>
          match get_repeat fuel k' (S i) g w1 with
          | Some (ps, w2) => Some (p :: ps, w2)
          | None => None
          end
      | None => None
      end
  end.

(** ** The creation policy's obligations and the invariant *)

(** [Traits::New()] returns the address of an object: neither NULL nor
    the marker. *)
Definition valid_New : Prop :=
  forall h : Heap, is_created (New Traits h).1 = true.


(** The order in which the word moves through its states: a word may stay,
    leave [Uncreated], or go from [BeingCreated] to [Created]. *)
Definition lifecycle_le (v v' : AtomicWord) : Prop :=
  match lifecycle v with
  | Uncreated => True
  | BeingCreated => v' = kBeingCreatedMarker \/ is_created v' = true
  | Created addr => v' = addr
  end.

(** What the place of a call on [g] says about the word of [g]. *)
Definition call_ok (g : Tag) (w : World Heap) (c : pc) : Prop :=
  match c with
  | AtLoad | AtCAS => True
  | AtWait => instance_ w g <> 0%Z
  | AtNew => instance_ w g = kBeingCreatedMarker /\ news g w = 0
  | AtStore newval =>
      instance_ w g = kBeingCreatedMarker /\ news g w = 1
      /\ is_created newval = true
  | Returned p => instance_ w g = p /\ is_created p = true
  end.

Definition word_ok (g : Tag) (st : State) : Prop :=
  match lifecycle (instance_ st.1 g) with
  | Uncreated =>
      news g st.1 = 0 /\ wins g st.1 = 0 /\ stored_values g (trace st.1) = []
  | BeingCreated =>
      (exists i c, st.2 !! i = Some c /\ call_tag c = g
                   /\ creating (call_pc c) = true)
      /\ wins g st.1 = 1 /\ stored_values g (trace st.1) = []
  | Created addr =>
      news g st.1 = 1 /\ wins g st.1 = 1
      /\ stored_values g (trace st.1) = [addr]
  end.

Record Inv (g : Tag) (st : State) : Prop := mkInv {
  inv_calls : forall i c, st.2 !! i = Some c -> call_tag c = g ->
              call_ok g st.1 (call_pc c);
  inv_creator : forall i j ci cj,
              st.2 !! i = Some ci -> st.2 !! j = Some cj ->
              call_tag ci = g -> call_tag cj = g ->
              creating (call_pc ci) = true -> creating (call_pc cj) = true ->
              i = j;
  inv_word : word_ok g st
}.

(** The word as a spinlock (singleton.h:29-30): whoever is between its
    successful compare-and-swap and its release-store holds the marker,
    and is alone there.  This needs nothing of [Traits::New()]. *)
Record Excl (g : Tag) (st : State) : Prop := mkExcl {
  excl_marker : forall i c, st.2 !! i = Some c -> call_tag c = g ->
                creating (call_pc c) = true ->
                instance_ st.1 g = kBeingCreatedMarker;
  excl_unique : forall i j ci cj,
                st.2 !! i = Some ci -> st.2 !! j = Some cj ->
                call_tag ci = g -> call_tag cj = g ->
                creating (call_pc ci) = true -> creating (call_pc cj) = true ->
                i = j
}.

(** Two worlds that instantiation [g] cannot tell apart. *)
Record same_on (g : Tag) (w w' : World Heap) : Prop := mkSame {
  same_instance : instance_ w' g = instance_ w g;
  same_news : news g w' = news g w;
  same_wins : wins g w' = wins g w;
  same_stored : stored_values g (trace w') = stored_values g (trace w)
}.

(** How far a call has come; a call only moves to a later place. *)
Definition rank (c : pc) : nat :=
  match c with
  | AtLoad => 0
  | AtCAS => 1
  | AtNew => 2
  | AtStore _ => 3
  | AtWait => 4
  | Returned _ => 5
  end.

Definition rank_at (ts : list Call) (j : nat) : nat :=
  match ts !! j with
  | Some c => rank (call_pc c)
  | None => 5
  end.

(** ** The books of an instantiation *)

(** The pointers [Traits::New()] returned for instantiation [g], in
    order. *)
Fixpoint new_values (g : Tag) (tr : list Event) : list AtomicWord :=
  match tr with
  | [] => []
  | e :: tr' =>
      match ev_op e with
      | OpNew v =>
          if Nat.eqb (ev_tag e) g then v :: new_values g tr'
          else new_values g tr'
      | _ => new_values g tr'
      end
  end.

(** The pointers [Traits::New()] returned, for all instantiations. *)
Fixpoint all_new_values (tr : list Event) : list AtomicWord :=
  match tr with
  | [] => []
  | e :: tr' =>
      match ev_op e with
      | OpNew v => v :: all_new_values tr'
      | _ => all_new_values tr'
      end
  end.

(** The heap after [n] calls of [Traits::New()], and the pointer the next
    call returns. *)
Definition heap_after (n : nat) (h : Heap) : Heap :=
  Nat.iter n (fun h' => (New Traits h').2) h.

Definition nth_new (h : Heap) (k : nat) : AtomicWord :=
  (New Traits (heap_after k h)).1.

(** From heap [h] on, [Traits::New()] never returns an address twice. *)
Definition never_repeats (h : Heap) : Prop :=
  forall j k, j <> k -> nth_new h j <> nth_new h k.

(** No call on [g] is between its compare-and-swap and its store. *)
Definition no_creator (g : Tag) (ts : list Call) : Prop :=
  forall j c, ts !! j = Some c -> call_tag c = g ->
              creating (call_pc c) = false.

(** The books when nobody is creating: every pointer [New] returned has
    been stored, every compare-and-swap that succeeded was followed by one
    [New], and the word holds the last pointer stored, or 0. *)
Definition settled (g : Tag) (w : World Heap) : Prop :=
  stored_values g (trace w) = new_values g (trace w)
  /\ wins g w = length (new_values g (trace w))
  /\ instance_ w g = List.last (stored_values g (trace w)) 0%Z.

(** The books as a call on [g] at [c] sees them. *)
Definition ledger_ok (g : Tag) (w : World Heap) (c : pc) : Prop :=
  match c with
  | AtNew =>
      stored_values g (trace w) = new_values g (trace w)
      /\ wins g w = S (length (new_values g (trace w)))
  | AtStore newval =>
      new_values g (trace w) = stored_values g (trace w) ++ [newval]
      /\ wins g w = length (new_values g (trace w))
  | Returned p => In p (new_values g (trace w))
  | _ => True
  end.

Record Ledger (g : Tag) (st : State) : Prop := mkLedger {
  led_calls : forall i c, st.2 !! i = Some c -> call_tag c = g ->
              ledger_ok g st.1 (call_pc c);
  led_settled : no_creator g st.2 -> settled g st.1
}.

(** The events of one call, by the place it has reached: the paths
    through [get()].  Of the loads made inside [WaitForInstance] only
    their kind is stated, and that the last one is returned. *)
Definition call_shape (c : pc) (ops : list Op) : Prop :=
  match c with
  | AtLoad => ops = []
  | AtCAS =>
      exists v, is_created v = false /\ ops = [OpAcquireLoad v]
  | AtNew =>
      exists v, is_created v = false
        /\ ops = [OpAcquireLoad v;
                  OpAcquireCAS 0%Z kBeingCreatedMarker 0%Z]
  | AtStore newval =>
      exists v, is_created v = false
        /\ ops = [OpAcquireLoad v;
                  OpAcquireCAS 0%Z kBeingCreatedMarker 0%Z;
                  OpNew newval]
  | AtWait =>
      exists v prev vs, is_created v = false /\ prev <> 0%Z
        /\ ops = [OpAcquireLoad v;
                  OpAcquireCAS 0%Z kBeingCreatedMarker prev]
                 ++ map OpAcquireLoad vs
  | Returned p =>
      (is_created p = true /\ ops = [OpAcquireLoad p])
      \/ (exists v, is_created v = false
            /\ ops = [OpAcquireLoad v;
                      OpAcquireCAS 0%Z kBeingCreatedMarker 0%Z;
                      OpNew p;
                      OpReleaseStore p])
      \/ (exists v prev vs, is_created v = false /\ prev <> 0%Z
            /\ ops = [OpAcquireLoad v;
                      OpAcquireCAS 0%Z kBeingCreatedMarker prev]
                     ++ map OpAcquireLoad vs ++ [OpAcquireLoad p])
  end.

(** Who may write the word, and what. *)
Definition word_step (g : Tag) (st : State) (a : Action)
    (v v' : AtomicWord) : Prop :=
  v' = v
  \/ (v = 0%Z /\ v' = kBeingCreatedMarker
      /\ exists i, a = Step i /\ st.2 !! i = Some (mkCall g AtCAS))
  \/ (v = kBeingCreatedMarker
      /\ exists i, a = Step i /\ st.2 !! i = Some (mkCall g (AtStore v'))).

(** ** The claims that fail for some creation policy, as they are stated *)

(** Any number of racing first calls: one [New], one pointer. *)
Definition single_creation : Prop :=
  forall (h : Heap) (g : Tag) (N : nat) (sched : list Action),
    1 <= N ->
    let st := run sched (init h (replicate N g)) in
    all_returned st.2 = true ->
    news g st.1 = 1 /\
    forall i j p q, result st.2 i = Some p -> result st.2 j = Some q -> p = q.

(** Once the word has left 0 it never holds 0 again. *)
Definition never_uncreated : Prop :=
  forall (h : Heap) (tags : list Tag) (s1 s2 : list Action) (g : Tag),
    let st1 := run s1 (init h tags) in
    instance_ st1.1 g <> 0%Z ->
    instance_ (run s2 st1).1 g <> 0%Z.

(** With [kRegisterAtExit] set, one callback is registered per instance. *)
Definition registration_once : Prop :=
  kRegisterAtExit Traits = true ->
  forall (h : Heap) (g : Tag) (N : nat) (sched : list Action),
    1 <= N ->
    let st := run sched (init h (replicate N g)) in
    all_returned st.2 = true ->
    length (at_exit st.1) = 1.

(** A call whose first load sees the marker ends up in the wait loop. *)
Definition marker_seen_waits : Prop :=
  forall (h : Heap) (tags : list Tag) (s0 s : list Action)
         (i : nat) (g : Tag),
    let st := run s0 (init h tags) in
    st.2 !! i = Some (mkCall g AtLoad) ->
    instance_ st.1 g = kBeingCreatedMarker ->
    idle i s = true ->
    (run (Step i :: s ++ [Step i]) st).2 !! i = Some (mkCall g AtWait).


End Singleton.

Arguments State Heap : clear implicits.

(** ** Creation policies used as concrete inputs *)

(** [new Type()] of an allocator that hands out 16-byte cells from
    address 4096 on; the heap is the number of cells given out. *)
Definition bump_new (h : nat) : AtomicWord * nat :=
  ((4096 + 16 * Z.of_nat h)%Z, S h).

Definition bump_delete (x : AtomicWord) (h : nat) : nat := h.

Definition default_traits : SingletonTraits nat :=
  DefaultSingletonTraits bump_new bump_delete.

(** The default policy with [kRegisterAtExit] set. *)
Definition registering_traits : SingletonTraits nat :=
  mkTraits bump_new bump_delete true.

(** A policy whose [New] fails by returning NULL, like
    [new (std::nothrow) Type()] on an exhausted heap. *)
Definition null_traits : SingletonTraits nat :=
  mkTraits (fun h => (0%Z, S h)) bump_delete false.


(** A policy whose [New] fails with NULL twice and allocates from then
    on. *)
Definition flaky_traits : SingletonTraits nat :=
  mkTraits (fun h => if Nat.ltb h 2 then (0%Z, S h) else bump_new h)
           bump_delete false.

(** The pool [7; 7] after call 0 has run alone to its return. *)
Definition created_state : State nat :=
  run default_traits [Step 0; Step 0; Step 0; Step 0] (init 0 [7; 7]).

Example get_fresh_default :
  (fun r => (r.1, instance_ r.2 7, instance_ r.2 8, heap r.2, trace r.2))
    <$> get default_traits 4 0 7 (fresh 0)
  = Some (4096%Z, 4096%Z, 0%Z, 1,
          [mkEvent 0 7 (OpAcquireLoad 0%Z);
           mkEvent 0 7 (OpAcquireCAS 0%Z 1%Z 0%Z);
           mkEvent 0 7 (OpNew 4096%Z);
           mkEvent 0 7 (OpReleaseStore 4096%Z)]).
Proof. reflexivity. Qed.

(** Two calls racing: call 1 loads and fails its compare-and-swap while
    call 0 is creating, spins once, and leaves with the same pointer. *)
Example race_default :
  (fun st : State nat => (call_pc <$> st.2, news 7 st.1, at_exit st.1))
    (run default_traits
       [Step 0; Step 1; Step 0; Step 1; Step 1; Step 0; Step 0; Step 1]
       (init 0 [7; 7]))
  = ([Returned 4096%Z; Returned 4096%Z], 1, []).
Proof. reflexivity. Qed.

(** A call alone on a word that stays [BeingCreated] never leaves the wait
    loop. *)
Example get_spins :
  get default_traits 50 0 7
      (mkWorld (fun _ => kBeingCreatedMarker) 0 [] []) = None.
Proof. reflexivity. Qed.

(** * Proofs *)

(** ** Words *)

Lemma is_created_spec (v : AtomicWord) :
  is_created v = true <-> v <> 0%Z /\ v <> kBeingCreatedMarker.
Proof.
  unfold is_created, kBeingCreatedMarker.
  rewrite andb_true_iff, !negb_true_iff, !Z.eqb_neq. tauto.
Qed.

Lemma lifecycle_spec (v : AtomicWord) :
  (v = 0%Z /\ lifecycle v = Uncreated)
  \/ (v = kBeingCreatedMarker /\ lifecycle v = BeingCreated)
  \/ (is_created v = true /\ lifecycle v = Created v).
Proof.
  unfold lifecycle, is_created, kBeingCreatedMarker.
  destruct (Z.eqb_spec v 0) as [->|H0]; [by left|].
  destruct (Z.eqb_spec v 1) as [->|H1]; [right; by left|].
  right; right. done.
Qed.

Lemma lifecycle_created (v : AtomicWord) :
  is_created v = true -> lifecycle v = Created v.
Proof.
  intros Hv. destruct (lifecycle_spec v) as [[-> _]|[[-> _]|[_ H]]]; done.
Qed.

Lemma lifecycle_le_refl (v : AtomicWord) : lifecycle_le v v.
Proof.
  unfold lifecycle_le.
  destruct (lifecycle_spec v) as [[-> ->]|[[-> ->]|[_ ->]]]; auto.
Qed.

Lemma lifecycle_le_trans (u v w : AtomicWord) :
  lifecycle_le u v -> lifecycle_le v w -> lifecycle_le u w.
Proof.
  unfold lifecycle_le.
  destruct (lifecycle_spec u) as [[-> ->]|[[-> ->]|[Hu ->]]]; [done| |].
  - intros [->|Hv]; [done|]. rewrite (lifecycle_created _ Hv).
    intros ->. by right.
  - intros ->. by rewrite (lifecycle_created _ Hu).
Qed.

Lemma lifecycle_le_nonzero (v v' : AtomicWord) :
  lifecycle_le v v' -> v <> 0%Z -> v' <> 0%Z.
Proof.
  unfold lifecycle_le.
  destruct (lifecycle_spec v) as [[-> ->]|[[-> ->]|[Hv ->]]]; [done| |].
  - intros [->|Hv'] _; [done|]. by apply is_created_spec in Hv' as [? _].
  - by intros ->.
Qed.

(** ** Traces *)

Lemma count_ev_snoc (f : Event -> bool) (tr : list Event) (e : Event) :
  count_ev f (tr ++ [e]) = count_ev f tr + (if f e then 1 else 0).
Proof. induction tr as [|e' tr IH]; simpl; [lia|]. rewrite IH. lia. Qed.

Lemma stored_values_snoc (g : Tag) (tr : list Event) (e : Event) :
  stored_values g (tr ++ [e]) = stored_values g tr ++ stored_values g [e].
Proof.
  induction tr as [|e' tr IH]; simpl; [done|].
  rewrite IH. destruct (ev_op e'); try done.
  by destruct (Nat.eqb (ev_tag e') g).
Qed.

Lemma events_of_snoc (i : nat) (tr : list Event) (e : Event) :
  events_of i (tr ++ [e])
  = events_of i tr ++ (if Nat.eqb (ev_call e) i then [ev_op e] else []).
Proof.
  unfold events_of. rewrite List.filter_app, map_app. simpl.
  by destruct (Nat.eqb (ev_call e) i).
Qed.

(** ** Schedules *)

(** Unfolds one step of [get()] into its cases. *)
Ltac step_cases :=
  unfold get_step, WaitForInstance, Acquire_Load,
         Acquire_CompareAndSwap, call_New, Release_Store; simpl;
  repeat match goal with
         | |- context [New ?T ?h] => destruct (New T h) eqn:?
         | |- context [if ?b then _ else _] => destruct b eqn:?
         end; simpl.

Section Schedules.

Context {Heap : Type}.
Variable Traits : SingletonTraits Heap.

Local Abbreviation State := (State Heap).

(** A step only appends events of its own call and instantiation, and
    leaves the registry and the other words alone. *)
Lemma get_step_frame (i : nat) (g : Tag) (c : pc) (w : World Heap) :
  let w' := (get_step Traits i g c w).2 in
  (exists ops, trace w' = trace w ++ map (mkEvent i g) ops)
  /\ at_exit w' = at_exit w
  /\ forall g', g' <> g -> instance_ w' g' = instance_ w g'.
Proof.
  destruct c; step_cases; (split; [|split; [done|]]);
    try (intros g' Hg'; rewrite ?decide_False by done; done);
    solve [ exists []; by rewrite app_nil_r | by eexists [_] ].
Qed.

(** The statements of [get()], one by one. *)
Lemma get_step_load (i : nat) (g : Tag) (w : World Heap) :
  get_step Traits i g AtLoad w
  = (if is_created (instance_ w g) then Returned (instance_ w g) else AtCAS,
     log i g (OpAcquireLoad (instance_ w g)) w).
Proof. simpl. unfold Acquire_Load. by destruct (is_created _). Qed.

Lemma get_step_cas (i : nat) (g : Tag) (w : World Heap) :
  get_step Traits i g AtCAS w
  = (if (instance_ w g =? 0)%Z then AtNew else AtWait,
     log i g (OpAcquireCAS 0%Z kBeingCreatedMarker (instance_ w g))
       (if (instance_ w g =? 0)%Z then set_instance g kBeingCreatedMarker w
        else w)).
Proof.
  simpl. unfold Acquire_CompareAndSwap. simpl.
  by destruct (instance_ w g =? 0)%Z.
Qed.

Lemma get_step_new (i : nat) (g : Tag) (w : World Heap) :
  get_step Traits i g AtNew w
  = (AtStore (New Traits (heap w)).1,
     log i g (OpNew (New Traits (heap w)).1)
       (mkWorld (instance_ w) (New Traits (heap w)).2 (at_exit w) (trace w))).
Proof. simpl. unfold call_New. by destruct (New Traits (heap w)). Qed.

Lemma get_step_store (i : nat) (g : Tag) (newval : AtomicWord)
    (w : World Heap) :
  get_step Traits i g (AtStore newval) w
  = (Returned newval,
     log i g (OpReleaseStore newval) (set_instance g newval w)).
Proof. reflexivity. Qed.

Lemma get_step_wait (i : nat) (g : Tag) (w : World Heap) :
  get_step Traits i g AtWait w
  = (if is_created (instance_ w g) then Returned (instance_ w g) else AtWait,
     log i g (OpAcquireLoad (instance_ w g)) w).
Proof.
  simpl. unfold WaitForInstance, Acquire_Load. by destruct (is_created _).
Qed.

Lemma run_app (s1 s2 : list Action) (st : State) :
  run Traits (s1 ++ s2) st = run Traits s2 (run Traits s1 st).
Proof. apply fold_left_app. Qed.

Lemma run_cons (a : Action) (s : list Action) (st : State) :
  run Traits (a :: s) st = run Traits s (exec Traits st a).
Proof. reflexivity. Qed.

Lemma run_snoc (a : Action) (s : list Action) (st : State) :
  run Traits (s ++ [a]) st = exec Traits (run Traits s st) a.
Proof. by rewrite run_app. Qed.

(** A property kept by every action is kept by every schedule. *)
Lemma run_ind (P : State -> Prop) :
  (forall st a, P st -> P (exec Traits st a)) ->
  forall s st, P st -> P (run Traits s st).
Proof.
  intros Hstep s. induction s as [|a s IH]; intros st Hst; [done|].
  rewrite run_cons. apply IH, Hstep, Hst.
Qed.

Lemma step_call_lookup (i : nat) (w : World Heap) (ts : list Call) (c : Call) :
  ts !! i = Some c ->
  step_call Traits i (w, ts)
  = ((get_step Traits i (call_tag c) (call_pc c) w).2,
     <[i := mkCall (call_tag c)
             (get_step Traits i (call_tag c) (call_pc c) w).1]> ts).
Proof.
  intros Hi. unfold step_call. simpl. rewrite Hi.
  by destruct (get_step Traits i (call_tag c) (call_pc c) w).
Qed.

Lemma step_call_none (i : nat) (st : State) :
  st.2 !! i = None -> step_call Traits i st = st.
Proof. intros Hi. unfold step_call. by rewrite Hi. Qed.

(** A call keeps its tag. *)
Lemma step_call_tag (i j : nat) (st : State) :
  call_tag <$> (step_call Traits i st).2 !! j = call_tag <$> st.2 !! j.
Proof.
  destruct st as [w ts]. destruct (ts !! i) as [c|] eqn:Hi.
  - rewrite (step_call_lookup _ _ _ _ Hi). simpl.
    destruct (decide (i = j)) as [->|Hne].
    + rewrite list_lookup_insert_eq by (by eapply lookup_lt_Some).
      by rewrite Hi.
    + by rewrite list_lookup_insert_ne.
  - by rewrite step_call_none.
Qed.

Lemma step_call_at (i : nat) (g : Tag) (c : pc) (st : State) :
  st.2 !! i = Some (mkCall g c) ->
  (step_call Traits i st).1 = (get_step Traits i g c st.1).2
  /\ (step_call Traits i st).2 !! i
     = Some (mkCall g (get_step Traits i g c st.1).1).
Proof.
  destruct st as [w ts]. simpl. intros Hi.
  rewrite (step_call_lookup _ _ _ _ Hi). simpl. split; [done|].
  apply list_lookup_insert_eq. by eapply lookup_lt_Some.
Qed.

(** Another call's step leaves a call and its events alone. *)
Lemma step_call_other (i j : nat) (st : State) :
  i <> j ->
  (step_call Traits j st).2 !! i = st.2 !! i
  /\ events_of i (trace (step_call Traits j st).1) = events_of i (trace st.1).
Proof.
  intros Hne. destruct st as [w ts]. destruct (ts !! j) as [c|] eqn:Hj.
  2: { by rewrite step_call_none. }
  rewrite (step_call_lookup _ _ _ _ Hj). simpl. split.
  - by rewrite list_lookup_insert_ne.
  - destruct (get_step_frame j (call_tag c) (call_pc c) w)
      as [[ops ->] _].
    unfold events_of. rewrite List.filter_app, map_app.
    replace (List.filter (fun e => Nat.eqb (ev_call e) i)
                         (map (mkEvent j (call_tag c)) ops)) with (@nil Event).
    { simpl. by rewrite app_nil_r. }
    induction ops as [|o ops IH]; simpl; [done|].
    by replace (Nat.eqb j i) with false
      by (symmetry; apply Nat.eqb_neq; congruence).
Qed.

End Schedules.
(** ** The word as a spinlock *)

Section Exclusion.

Context {Heap : Type}.
Variable Traits : SingletonTraits Heap.

Local Abbreviation State := (State Heap).

Lemma init_excl (g : Tag) (h : Heap) (tags : list Tag) :
  Excl g (init h tags).
Proof.
  assert (Hno : forall i c, (init h tags).2 !! i = Some c ->
                            creating (call_pc c) = false).
  { intros i c Hi. simpl in Hi. unfold spawn in Hi.
    rewrite list_lookup_fmap in Hi. by destruct (tags !! i); simplify_eq/=. }
  split.
  - intros i c Hi _ Hc. rewrite (Hno i c Hi) in Hc. done.
  - intros i j ci cj Hi _ _ _ Hc _. rewrite (Hno i ci Hi) in Hc. done.
Qed.

(** Call [i] of [g] moves from [c] to [c'] and the world from [w] to [w']:
    a call that starts creating found the lock free and takes it, and a
    held lock changes only by the hand of the creator. *)
Lemma Excl_update (g : Tag) (w w' : World Heap) (ts : list Call)
    (i : nat) (c c' : pc) :
  Excl g (w, ts) ->
  ts !! i = Some (mkCall g c) ->
  (creating c' = true -> instance_ w' g = kBeingCreatedMarker) ->
  (creating c' = true -> creating c = false ->
   instance_ w g <> kBeingCreatedMarker) ->
  (instance_ w' g = instance_ w g \/ creating c = true
   \/ instance_ w g <> kBeingCreatedMarker) ->
  Excl g (w', <[i := mkCall g c']> ts).
Proof.
  intros [Hmark Huniq] Hi Htake Hfree Hword. simpl in *.
  assert (Hsole : forall j cj, j <> i -> ts !! j = Some cj -> call_tag cj = g ->
            creating (call_pc cj) = true ->
            creating c = false /\ instance_ w g = kBeingCreatedMarker).
  { intros j cj Hj Hcj Hgj Hcr. split; [|by eapply Hmark].
    destruct (creating c) eqn:Hc; [|done].
    exfalso. apply Hj. by eapply (Huniq j i cj (mkCall g c)). }
  split; simpl.
  - intros j cj Hj Hgj Hcr.
    apply list_lookup_insert_Some in Hj as [(-> & <- & _)|[Hne Hj]];
      simpl in *; [by apply Htake|].
    destruct (Hsole j cj ltac:(congruence) Hj Hgj Hcr) as [Hc Hm].
    destruct Hword as [->|[Hc'|Hne']]; [done|congruence|done].
  - intros j k cj ck Hj Hk Hgj Hgk Hcj Hck.
    apply list_lookup_insert_Some in Hj as [(-> & <- & _)|[Hnej Hj]];
    apply list_lookup_insert_Some in Hk as [(Hki & <- & _)|[Hnek Hk]];
      simpl in *.
    + done.
    + destruct (Hsole k ck ltac:(congruence) Hk Hgk Hck) as [Hc Hm].
      by destruct (Hfree Hcj Hc).
    + destruct (Hsole j cj ltac:(congruence) Hj Hgj Hcj) as [Hc Hm].
      by destruct (Hfree Hck Hc).
    + eauto.
Qed.

Lemma step_excl (g : Tag) (i : nat) (st : State) :
  Excl g st -> Excl g (step_call Traits i st).
Proof.
  destruct st as [w ts]. intros HE.
  destruct (ts !! i) as [[g' c]|] eqn:Hi; [|by rewrite step_call_none].
  rewrite (step_call_lookup _ _ _ _ _ Hi). simpl call_tag. simpl call_pc.
  destruct (decide (g' = g)) as [->|Hg].
  - pose proof (excl_marker _ _ HE i _ Hi eq_refl) as Hm. simpl in Hm.
    apply (Excl_update g w _ ts i c _ HE Hi); destruct c;
      rewrite ?get_step_load, ?get_step_cas, ?get_step_new, ?get_step_store,
              ?get_step_wait; simpl;
      repeat match goal with
             | |- context [if ?b then _ else _] => destruct b eqn:?
             end; simpl; rewrite ?decide_True by done; auto; try done.
    + intros _ _. apply Z.eqb_eq in Heqb. by rewrite Heqb.
    + right. right. apply Z.eqb_eq in Heqb. by rewrite Heqb.
  - destruct HE as [Hmark Huniq]. simpl in *.
    pose proof (get_step_frame Traits i g' c w) as (_ & _ & Hinst).
    split; simpl.
    + intros j cj Hj Hgj Hcr. rewrite Hinst by congruence.
      apply list_lookup_insert_Some in Hj as [(-> & <- & _)|[Hne Hj]];
        simpl in *; [done|]. by eapply Hmark.
    + intros j k cj ck Hj Hk Hgj Hgk Hcj Hck.
      apply list_lookup_insert_Some in Hj as [(-> & <- & _)|[Hnej Hj]];
        simpl in *; [done|].
      apply list_lookup_insert_Some in Hk as [(Hki & <- & _)|[Hnek Hk]];
        simpl in *; [done|]. eauto.
Qed.

Lemma exec_excl (g : Tag) (st : State) (a : Action) :
  Excl g st -> Excl g (exec Traits st a).
Proof. destruct a; simpl; [apply step_excl|by destruct st]. Qed.

Lemma reachable_excl (g : Tag) (h : Heap) (tags : list Tag)
    (s : list Action) :
  Excl g (run Traits s (init h tags)).
Proof.
  apply (run_ind Traits (Excl g)); [|apply init_excl].
  intros st a. apply exec_excl.
Qed.

End Exclusion.

(** ** The invariant *)

Section Safety.

Context {Heap : Type}.
Variable Traits : SingletonTraits Heap.

Local Abbreviation State := (State Heap).

Lemma same_on_refl (g : Tag) (w : World Heap) : same_on g w w.
Proof. by split. Qed.

Lemma same_on_trans (g : Tag) (w1 w2 w3 : World Heap) :
  same_on g w1 w2 -> same_on g w2 w3 -> same_on g w1 w3.
Proof. intros [? ? ? ?] [? ? ? ?]. split; congruence. Qed.

Lemma count_ev_foreign (f : Event -> bool) (i : nat) (g : Tag)
    (tr : list Event) (ops : list Op) :
  (forall o, f (mkEvent i g o) = false) ->
  count_ev f (tr ++ map (mkEvent i g) ops) = count_ev f tr.
Proof.
  intros Hf. induction ops as [|o ops IH] using rev_ind.
  - by rewrite app_nil_r.
  - rewrite map_app, app_assoc. simpl. rewrite count_ev_snoc, IH, Hf. lia.
Qed.

Lemma stored_values_foreign (g g' : Tag) (i : nat)
    (tr : list Event) (ops : list Op) :
  g' <> g ->
  stored_values g (tr ++ map (mkEvent i g') ops) = stored_values g tr.
Proof.
  intros Hg. induction ops as [|o ops IH] using rev_ind.
  - by rewrite app_nil_r.
  - rewrite map_app, app_assoc. simpl. rewrite stored_values_snoc, IH.
    apply Nat.eqb_neq in Hg.
    destruct o; simpl; rewrite ?Hg, ?app_nil_r; done.
Qed.

(** A step on another instantiation is invisible to [g]. *)
Lemma get_step_same_on (g g' : Tag) (i : nat) (c : pc) (w : World Heap) :
  g' <> g -> same_on g w (get_step Traits i g' c w).2.
Proof.
  intros Hg.
  destruct (get_step_frame Traits i g' c w) as [[ops Hops] [_ Hinst]].
  assert (Hb : Nat.eqb g' g = false) by by apply Nat.eqb_neq.
  split.
  - apply Hinst. congruence.
  - unfold news. rewrite Hops. apply count_ev_foreign.
    intros o. unfold is_new. simpl. rewrite Hb. by destruct o.
  - unfold wins. rewrite Hops. apply count_ev_foreign.
    intros o. unfold is_win. simpl. rewrite Hb. by destruct o.
  - rewrite Hops. by apply stored_values_foreign.
Qed.

(** A load, or a compare-and-swap that found another value, changes
    nothing that [g] depends on. *)
Lemma log_load_same_on (g g' : Tag) (i : nat) (v : AtomicWord)
    (w : World Heap) :
  same_on g w (log i g' (OpAcquireLoad v) w).
Proof.
  split; unfold news, wins; simpl; rewrite ?count_ev_snoc,
    ?stored_values_snoc; simpl; rewrite ?app_nil_r; auto with lia.
Qed.

Lemma log_cas_lost_same_on (g g' : Tag) (i : nat) (o n v : AtomicWord)
    (w : World Heap) :
  (v =? o)%Z = false ->
  same_on g w (log i g' (OpAcquireCAS o n v) w).
Proof.
  intros Hv.
  split; unfold news, wins; simpl; rewrite ?count_ev_snoc,
    ?stored_values_snoc; unfold is_win; simpl;
    rewrite ?Hv, ?andb_false_r, ?app_nil_r; auto with lia.
Qed.

Lemma call_ok_same_on (g : Tag) (w w' : World Heap) (c : pc) :
  same_on g w w' -> call_ok g w c -> call_ok g w' c.
Proof.
  intros [Hi Hn _ _]. destruct c; simpl; rewrite ?Hi, ?Hn; done.
Qed.

Lemma init_inv (g : Tag) (h : Heap) (tags : list Tag) :
  Inv g (init h tags).
Proof.
  split; simpl.
  - intros i c Hi _. unfold spawn in Hi. rewrite list_lookup_fmap in Hi.
    destruct (tags !! i); simplify_eq/=. done.
  - intros i j ci cj Hi _ _ _ Hc _. unfold spawn in Hi.
    rewrite list_lookup_fmap in Hi.
    destruct (tags !! i); simplify_eq/=.
  - unfold word_ok. simpl. done.
Qed.

(** Rebuilding the invariant after call [i] of [g] moved from [c] to
    [c']: the other calls must still agree with the new world, and none of
    them may be creating if [c'] is. *)
Lemma Inv_update (g : Tag) (w w' : World Heap) (ts : list Call)
    (i : nat) (c c' : pc) :
  Inv g (w, ts) ->
  ts !! i = Some (mkCall g c) ->
  (forall j cj, j <> i -> ts !! j = Some cj -> call_tag cj = g ->
     call_ok g w' (call_pc cj)
     /\ (creating (call_pc cj) = true -> creating c' = false)) ->
  call_ok g w' c' ->
  word_ok g (w', <[i := mkCall g c']> ts) ->
  Inv g (w', <[i := mkCall g c']> ts).
Proof.
  intros [Hcalls Hcreator _] Hi Hothers Hc' Hword. simpl in *.
  split; simpl; [| |done].
  - intros j cj Hj Hg. apply list_lookup_insert_Some in Hj
      as [(-> & <- & _)|[Hne Hj]]; [done|].
    by eapply Hothers.
  - intros j k cj ck Hj Hk Hgj Hgk Hcj Hck.
    apply list_lookup_insert_Some in Hj as [(-> & <- & _)|[Hnej Hj]];
    apply list_lookup_insert_Some in Hk as [(Hki & <- & _)|[Hnek Hk]];
      simpl in *.
    + done.
    + destruct (Hothers k ck) as [_ Hno]; [done..|]. rewrite Hno in Hcj; done.
    + subst k.
      destruct (Hothers j cj) as [_ Hno]; [done..|]. rewrite Hno in Hck; done.
    + eauto.
Qed.

(** The same when the world looks the same to [g] and the step is not one
    of a creating call of [g]. *)
Lemma Inv_same_on (g g' : Tag) (w w' : World Heap) (ts : list Call)
    (i : nat) (c c' : pc) :
  same_on g w w' ->
  Inv g (w, ts) ->
  ts !! i = Some (mkCall g' c) ->
  (g' = g -> call_ok g w' c' /\ creating c = false /\ creating c' = false) ->
  Inv g (w', <[i := mkCall g' c']> ts).
Proof.
  intros Hsame [Hcalls Hcreator Hword] Hi Hc'. simpl in *.
  split; simpl.
  - intros j cj Hj Hg. apply list_lookup_insert_Some in Hj
      as [(-> & <- & _)|[Hne Hj]]; simpl in *.
    + by apply Hc'.
    + eapply call_ok_same_on; eauto.
  - intros j k cj ck Hj Hk Hgj Hgk Hcj Hck.
    apply list_lookup_insert_Some in Hj as [(-> & <- & _)|[Hnej Hj]];
    apply list_lookup_insert_Some in Hk as [(Hki & <- & _)|[Hnek Hk]];
      simpl in *; try done.
    + destruct (Hc' Hgj) as (_ & _ & Hno). congruence.
    + destruct (Hc' Hgk) as (_ & _ & Hno). congruence.
    + eauto.
  - unfold word_ok in *. simpl in *.
    destruct Hsame as [-> -> -> ->].
    destruct (lifecycle (instance_ w g)); [done| |done].
    destruct Hword as [(j & cj & Hj & Hgj & Hcj) Hrest].
    split; [|done]. exists j, cj. split; [|done].
    apply list_lookup_insert_Some. right. split; [|done].
    intros <-. rewrite Hi in Hj. simplify_eq/=.
    destruct (Hc' eq_refl) as (_ & Hno & _). congruence.
Qed.

Lemma is_new_mk (g g' : Tag) (i : nat) (o : Op) :
  is_new g (mkEvent i g' o)
  = match o with OpNew _ => Nat.eqb g' g | _ => false end.
Proof. reflexivity. Qed.

Lemma is_win_mk (g g' : Tag) (i : nat) (o : Op) :
  is_win g (mkEvent i g' o)
  = match o with
    | OpAcquireCAS old_value _ prev => Nat.eqb g' g && (prev =? old_value)%Z
    | _ => false
    end.
Proof. reflexivity. Qed.

Hypothesis Hnew : valid_New Traits.

(** Every step of every call keeps the invariant of every instantiation. *)
Lemma step_inv (g : Tag) (i : nat) (st : State) :
  Inv g st -> Inv g (step_call Traits i st).
Proof.
  destruct st as [w ts]. intros HI.
  destruct (ts !! i) as [[g' c]|] eqn:Hi; [|by rewrite step_call_none].
  rewrite (step_call_lookup _ _ _ _ _ Hi). simpl.
  destruct (decide (g' = g)) as [->|Hg].
  2: { eapply Inv_same_on; eauto using get_step_same_on. done. }
  pose proof (inv_calls _ _ HI i _ Hi eq_refl) as Hc. simpl in Hc.
  pose proof (inv_word _ _ HI) as Hw. unfold word_ok in Hw. simpl in Hw.
  destruct c; simpl.
  - (* the load of singleton.h:167 *)
    unfold Acquire_Load. simpl.
    destruct (is_created (instance_ w g)) eqn:Hv; simpl;
      (eapply Inv_same_on; eauto using log_load_same_on); done.
  - (* the compare-and-swap of singleton.h:173 *)
    unfold Acquire_CompareAndSwap. simpl.
    destruct (Z.eqb_spec (instance_ w g) 0) as [H0|H0]; simpl.
    + rewrite H0 in Hw. simpl in Hw. destruct Hw as (Hn & Hwin & Hst).
      apply Inv_update with (w := w) (c := AtCAS); try done.
      * intros j cj Hj Hcj Hgj.
        pose proof (inv_calls _ _ HI j _ Hcj Hgj) as Hcj'. simpl in Hcj'.
        destruct (call_pc cj); simpl in *; rewrite ?decide_True by done;
          try done;
          try solve [ destruct Hcj' as [Hm _]; by rewrite H0 in Hm ];
          destruct Hcj' as [<- Hp]; by rewrite H0 in Hp.
      * simpl. rewrite decide_True by done. split; [done|].
        unfold news in *. simpl.
        rewrite count_ev_snoc, ?is_new_mk, ?is_win_mk. simpl. lia.
      * unfold word_ok. simpl. rewrite decide_True by done. simpl.
        split; [|split].
        -- exists i, (mkCall g AtNew). split; [|done].
           apply list_lookup_insert_eq. by eapply lookup_lt_Some.
        -- unfold wins in *. simpl.
           rewrite count_ev_snoc, ?is_new_mk, ?is_win_mk. simpl.
           rewrite Nat.eqb_refl, H0. simpl. lia.
        -- by rewrite stored_values_snoc, Hst.
    + eapply Inv_same_on; [|exact HI|exact Hi|done].
      apply log_cas_lost_same_on. by apply Z.eqb_neq.
  - (* Traits::New() of singleton.h:178 *)
    destruct Hc as [Hm Hn]. rewrite Hm in Hw. simpl in Hw.
    destruct Hw as (_ & Hwin & Hst).
    unfold call_New. pose proof (Hnew (heap w)) as Hp.
    destruct (New Traits (heap w)) as [newval h'] eqn:HN. simpl in *.
    apply Inv_update with (w := w) (c := AtNew); try done.
    * intros j cj Hj Hcj Hgj.
      pose proof (inv_calls _ _ HI j _ Hcj Hgj) as Hcj'. simpl in Hcj'.
      destruct (call_pc cj) eqn:Hpc; simpl in *; try done;
        try solve [ exfalso; apply Hj; eapply (inv_creator _ _ HI); eauto;
                    by rewrite Hpc ];
        destruct Hcj' as [<- Hq]; by rewrite Hm in Hq.
    * simpl. split; [done|]. split; [|done].
      unfold news in *. simpl.
      rewrite count_ev_snoc, ?is_new_mk, ?is_win_mk. simpl.
      rewrite Nat.eqb_refl. lia.
    * unfold word_ok. simpl. rewrite Hm. simpl. split; [|split].
      -- exists i, (mkCall g (AtStore newval)). split; [|done].
         apply list_lookup_insert_eq. by eapply lookup_lt_Some.
      -- unfold wins in *. simpl.
         rewrite count_ev_snoc, ?is_new_mk, ?is_win_mk. simpl. lia.
      -- by rewrite stored_values_snoc, Hst.
  - (* the release-store of singleton.h:181 *)
    destruct Hc as (Hm & Hn & Hp). rewrite Hm in Hw. simpl in Hw.
    destruct Hw as (_ & Hwin & Hst).
    unfold Release_Store.
    apply Inv_update with (w := w) (c := AtStore newval); try done.
    * intros j cj Hj Hcj Hgj.
      pose proof (inv_calls _ _ HI j _ Hcj Hgj) as Hcj'. simpl in Hcj'.
      destruct (call_pc cj) eqn:Hpc; simpl in *; rewrite ?decide_True by done;
        try done;
        try solve [ exfalso; apply Hj; eapply (inv_creator _ _ HI); eauto;
                    by rewrite Hpc ];
        try solve [ destruct Hcj' as [<- Hq]; by rewrite Hm in Hq ].
      split; [|done]. by apply is_created_spec in Hp as [? _].
    * simpl. by rewrite decide_True by done.
    * unfold word_ok. simpl. rewrite decide_True by done.
      rewrite (lifecycle_created _ Hp). split; [|split].
      -- unfold news in *. simpl.
         rewrite count_ev_snoc, ?is_new_mk, ?is_win_mk. simpl. lia.
      -- unfold wins in *. simpl.
         rewrite count_ev_snoc, ?is_new_mk, ?is_win_mk. simpl. lia.
      -- rewrite stored_values_snoc, Hst. simpl. by rewrite Nat.eqb_refl.
  - (* a turn of the wait loop, singleton.h:191 *)
    unfold WaitForInstance, Acquire_Load. simpl.
    destruct (is_created (instance_ w g)) eqn:Hv; simpl;
      (eapply Inv_same_on; eauto using log_load_same_on); done.
  - (* returned *)
    eapply Inv_same_on; eauto using same_on_refl.
Qed.

Lemma exec_inv (g : Tag) (st : State) (a : Action) :
  Inv g st -> Inv g (exec Traits st a).
Proof.
  destruct a as [i|g']; simpl; [apply step_inv|].
  by destruct st.
Qed.

Lemma run_inv (g : Tag) (s : list Action) (st : State) :
  Inv g st -> Inv g (run Traits s st).
Proof. apply run_ind. intros st' a. apply exec_inv. Qed.

Lemma reachable_inv (g : Tag) (h : Heap) (tags : list Tag) (s : list Action) :
  Inv g (run Traits s (init h tags)).
Proof. apply run_inv, init_inv. Qed.

(** *** Tags and results *)

Lemma run_tags (s : list Action) (st : State) :
  call_tag <$> (run Traits s st).2 = call_tag <$> st.2.
Proof.
  apply (run_ind Traits (fun st' => call_tag <$> st'.2 = call_tag <$> st.2));
    [|done].
  intros st' [i|g'] IH; simpl; [|done].
  rewrite <- IH. apply list_eq. intros j.
  rewrite !list_lookup_fmap. apply step_call_tag.
Qed.

Lemma run_length (s : list Action) (st : State) :
  length (run Traits s st).2 = length st.2.
Proof.
  rewrite <- (length_fmap call_tag), run_tags. apply length_fmap.
Qed.

Lemma init_tags (h : Heap) (tags : list Tag) :
  call_tag <$> (init h tags).2 = tags.
Proof.
  simpl. unfold spawn. induction tags as [|g tags IH]; simpl; [done|].
  by f_equal.
Qed.

Lemma reachable_tag (h : Heap) (tags : list Tag) (s : list Action)
    (i : nat) (c : Call) :
  (run Traits s (init h tags)).2 !! i = Some c -> tags !! i = Some (call_tag c).
Proof.
  intros Hi. rewrite <- (init_tags h tags), <- (run_tags s).
  by rewrite list_lookup_fmap, Hi.
Qed.

Lemma result_Some (ts : list Call) (i : nat) (p : AtomicWord) :
  result ts i = Some p <->
  exists g, ts !! i = Some (mkCall g (Returned p)).
Proof.
  unfold result. destruct (ts !! i) as [[g []]|]; split;
    try done; try (by intros [? ?]).
  - intros [= ->]. by exists g.
  - by intros [g' [= -> ->]].
Qed.

Lemma all_returned_lookup (ts : list Call) (i : nat) (c : Call) :
  all_returned ts = true -> ts !! i = Some c ->
  exists p, call_pc c = Returned p.
Proof.
  unfold all_returned. rewrite forallb_forall. intros Hall Hi.
  assert (Hin : In c ts)
    by (apply list_elem_of_In; by eapply list_elem_of_lookup_2).
  specialize (Hall c Hin). destruct (call_pc c); try done. by eexists.
Qed.

(** A returned call holds the word of its instantiation. *)
Lemma returned_word (g : Tag) (st : State) (i : nat) (p : AtomicWord) :
  Inv g st -> st.2 !! i = Some (mkCall g (Returned p)) ->
  instance_ st.1 g = p /\ is_created p = true /\ news g st.1 = 1.
Proof.
  intros HI Hi. destruct (inv_calls _ _ HI i _ Hi eq_refl) as [Hp Hc].
  simpl in *. split; [done|]. split; [done|].
  pose proof (inv_word _ _ HI) as Hw. unfold word_ok in Hw.
  rewrite Hp, (lifecycle_created _ Hc) in Hw. tauto.
Qed.

(** *** The word only moves forward *)

Lemma step_word_mono (g : Tag) (i : nat) (st : State) :
  Inv g st ->
  lifecycle_le (instance_ st.1 g) (instance_ (step_call Traits i st).1 g).
Proof.
  destruct st as [w ts]. intros HI.
  destruct (ts !! i) as [[g' c]|] eqn:Hi.
  2: { rewrite step_call_none by done. apply lifecycle_le_refl. }
  rewrite (step_call_lookup _ _ _ _ _ Hi). simpl.
  destruct (decide (g' = g)) as [->|Hg].
  2: { rewrite (same_instance _ _ _ (get_step_same_on g g' i c w Hg)).
       apply lifecycle_le_refl. }
  pose proof (inv_calls _ _ HI i _ Hi eq_refl) as Hc. simpl in Hc.
  destruct c; step_cases; rewrite ?decide_True by done;
    try apply lifecycle_le_refl.
  - apply Z.eqb_eq in Heqb. rewrite Heqb. done.
  - destruct Hc as (Hm & _ & Hp). unfold lifecycle_le. rewrite Hm. simpl.
    by right.
Qed.

Lemma run_word_mono (g : Tag) (s : list Action) (st : State) :
  Inv g st ->
  lifecycle_le (instance_ st.1 g) (instance_ (run Traits s st).1 g).
Proof.
  revert st. induction s as [|a s IH]; intros st HI.
  - apply lifecycle_le_refl.
  - rewrite run_cons. eapply lifecycle_le_trans; [|apply IH, exec_inv, HI].
    destruct a as [i|g']; simpl; [by apply step_word_mono|].
    apply lifecycle_le_refl.
Qed.

(** *** Progress under fair schedules *)

Lemma get_step_rank (i : nat) (g : Tag) (c : pc) (w : World Heap) :
  rank c <= rank (get_step Traits i g c w).1
  /\ (rank c < 4 -> rank c < rank (get_step Traits i g c w).1).
Proof. destruct c; step_cases; lia. Qed.

Lemma step_rank_at_mono (i j : nat) (st : State) :
  rank_at st.2 j <= rank_at (step_call Traits i st).2 j.
Proof.
  destruct st as [w ts]. destruct (ts !! i) as [c|] eqn:Hi.
  2: { by rewrite step_call_none. }
  rewrite (step_call_lookup _ _ _ _ _ Hi). unfold rank_at. simpl.
  destruct (decide (i = j)) as [->|Hne].
  - rewrite list_lookup_insert_eq by (by eapply lookup_lt_Some).
    rewrite Hi. simpl. apply get_step_rank.
  - by rewrite list_lookup_insert_ne.
Qed.

Lemma exec_rank_at_mono (a : Action) (j : nat) (st : State) :
  rank_at st.2 j <= rank_at (exec Traits st a).2 j.
Proof. destruct a; simpl; [apply step_rank_at_mono|done]. Qed.

Lemma run_rank_at_mono (s : list Action) (j : nat) (st : State) :
  rank_at st.2 j <= rank_at (run Traits s st).2 j.
Proof.
  revert st. induction s as [|a s IH]; intros st; [done|].
  rewrite run_cons. etrans; [apply (exec_rank_at_mono a)|apply IH].
Qed.

(** When every call is at least at place [k], a step takes its call
    beyond [k]: up to the wait loop every statement moves on, and the wait
    loop is left because no creator is behind. *)
Lemma step_rank_at_advance (i k : nat) (st : State) :
  (forall g, Inv g st) -> (forall j, k <= rank_at st.2 j) -> k < 5 ->
  S k <= rank_at (step_call Traits i st).2 i.
Proof.
  destruct st as [w ts]. intros HI Hall Hk.
  destruct (ts !! i) as [[g c]|] eqn:Hi.
  2: { rewrite step_call_none by done. unfold rank_at. simpl.
       rewrite Hi. lia. }
  pose proof (Hall i) as Hki. unfold rank_at in Hki. simpl in Hki.
  rewrite Hi in Hki. simpl in Hki.
  rewrite (step_call_lookup _ _ _ _ _ Hi). unfold rank_at. simpl.
  rewrite list_lookup_insert_eq by (by eapply lookup_lt_Some). simpl.
  destruct (get_step_rank i g c w) as [Hmono Hadv].
  destruct (decide (rank c < 4)) as [Hlt|Hge]; [specialize (Hadv Hlt); lia|].
  destruct c; simpl in *; try lia.
  unfold WaitForInstance, Acquire_Load. simpl.
  pose proof (inv_calls _ _ (HI g) i _ Hi eq_refl) as Hc. simpl in Hc.
  pose proof (inv_word _ _ (HI g)) as Hw. unfold word_ok in Hw. simpl in Hw.
  destruct (lifecycle_spec (instance_ w g)) as [[H0 _]|[[Hm Hl]|[Hcr _]]].
  - done.
  - rewrite Hl in Hw. destruct Hw as [(j & cj & Hj & _ & Hcj) _].
    rewrite Hm. simpl.
    pose proof (Hall j) as Hkj. unfold rank_at in Hkj. simpl in Hkj.
    rewrite Hj in Hkj. destruct (call_pc cj); simpl in *; try done; lia.
  - rewrite Hcr. simpl. lia.
Qed.

Lemma seg_advance (seg : list Action) (i k : nat) (st : State) :
  (forall g, Inv g st) -> (forall j, k <= rank_at st.2 j) -> k < 5 ->
  existsb (steps_of i) seg = true ->
  S k <= rank_at (run Traits seg st).2 i.
Proof.
  revert st. induction seg as [|a seg IH]; intros st HI Hall Hk Hex;
    [done|].
  rewrite run_cons. simpl in Hex. apply orb_true_iff in Hex as [Ha|Hex].
  - destruct a as [j|g]; simpl in Ha; [|done].
    apply Nat.eqb_eq in Ha as ->. simpl.
    etrans; [by apply step_rank_at_advance|apply run_rank_at_mono].
  - apply IH; try done.
    + intros g. by apply exec_inv.
    + intros j. etrans; [apply Hall|apply exec_rank_at_mono].
Qed.

Lemma round_advance (seg : list Action) (k : nat) (st : State) :
  (forall g, Inv g st) -> (forall j, k <= rank_at st.2 j) -> k < 5 ->
  covers (length st.2) seg = true ->
  forall j, S k <= rank_at (run Traits seg st).2 j.
Proof.
  intros HI Hall Hk Hcov j.
  destruct (decide (j < length st.2)) as [Hj|Hj].
  - apply seg_advance; try done.
    unfold covers in Hcov. rewrite forallb_forall in Hcov.
    apply Hcov, in_seq. lia.
  - unfold rank_at. rewrite lookup_ge_None_2; [lia|].
    rewrite run_length. lia.
Qed.

Lemma rounds_advance (rounds : list (list Action)) (k : nat) (st : State) :
  (forall g, Inv g st) -> (forall j, k <= rank_at st.2 j) ->
  forallb (covers (length st.2)) rounds = true ->
  forall j, Nat.min (k + length rounds) 5
            <= rank_at (run Traits (concat rounds) st).2 j.
Proof.
  revert k st. induction rounds as [|seg rounds IH]; intros k st HI Hall Hcov j.
  - simpl. pose proof (Hall j). lia.
  - simpl in Hcov. apply andb_true_iff in Hcov as [Hseg Hcov].
    simpl. rewrite run_app.
    destruct (decide (k < 5)) as [Hk|Hk].
    + replace (k + S (length rounds)) with (S k + length rounds) by lia.
      apply IH.
      * intros g. by apply run_inv.
      * by apply round_advance.
      * by rewrite run_length.
    + etrans; [|apply run_rank_at_mono]. etrans; [|apply run_rank_at_mono].
      pose proof (Hall j). lia.
Qed.

Lemma all_returned_rank (ts : list Call) :
  (forall j, 5 <= rank_at ts j) -> all_returned ts = true.
Proof.
  intros Hall. unfold all_returned. apply forallb_forall. intros c Hin.
  apply list_elem_of_In, list_elem_of_lookup in Hin as [j Hj].
  specialize (Hall j). unfold rank_at in Hall. rewrite Hj in Hall.
  destruct (call_pc c); simpl in *; try lia; done.
Qed.

(** Five rounds in each of which every call is scheduled bring every call
    to its return. *)
Lemma fair_returns (h : Heap) (tags : list Tag)
    (rounds : list (list Action)) :
  forallb (covers (length tags)) rounds = true ->
  5 <= length rounds ->
  all_returned (run Traits (concat rounds) (init h tags)).2 = true.
Proof.
  intros Hcov Hlen. apply all_returned_rank. intros j.
  etrans; [|apply (rounds_advance rounds 0)].
  - simpl. lia.
  - intros g. apply init_inv.
  - intros j'. lia.
  - simpl. unfold spawn. by rewrite length_map.
Qed.

End Safety.

(** ** Once the word holds an address *)

Section Published.

Context {Heap : Type}.
Variable Traits : SingletonTraits Heap.

(** Nothing writes a word that holds an address, and no [New] is called
    for it: a creator would hold the marker, and a compare-and-swap from 0
    fails.  This holds for every creation policy. *)
Lemma exec_published (g : Tag) (a : Action) (st : State Heap) :
  Excl g st -> is_created (instance_ st.1 g) = true ->
  same_on g st.1 (exec Traits st a).1.
Proof.
  intros HE Hc. destruct a as [i|g']; simpl; [|apply same_on_refl].
  destruct st as [w ts]. destruct (ts !! i) as [[g' c]|] eqn:Hi.
  2: { rewrite step_call_none by done. apply same_on_refl. }
  rewrite (step_call_lookup _ _ _ _ _ Hi). simpl in *.
  destruct (decide (g' = g)) as [->|Hg]; [|by apply get_step_same_on].
  pose proof (excl_marker _ _ HE i _ Hi eq_refl) as Hm. simpl in Hm.
  apply is_created_spec in Hc as [H0 H1].
  destruct c.
  - rewrite get_step_load. apply log_load_same_on.
  - rewrite get_step_cas. apply Z.eqb_neq in H0. rewrite H0. simpl.
    by apply log_cas_lost_same_on.
  - by destruct H1, Hm.
  - by destruct H1, Hm.
  - rewrite get_step_wait. apply log_load_same_on.
  - apply same_on_refl.
Qed.

Lemma run_published (g : Tag) (s : list Action) (st : State Heap) :
  Excl g st -> is_created (instance_ st.1 g) = true ->
  same_on g st.1 (run Traits s st).1.
Proof.
  revert st. induction s as [|a s IH]; intros st HE Hc.
  - apply same_on_refl.
  - rewrite run_cons.
    pose proof (exec_published g a st HE Hc) as Ha.
    eapply same_on_trans; [exact Ha|]. apply IH.
    + by apply exec_excl.
    + by rewrite (same_instance _ _ _ Ha).
Qed.

(** A call that has not yet loaded, or is in the wait loop, returns the
    address the first time it is scheduled, and stays returned. *)
Lemma returns_published (g : Tag) (i : nat) (s : list Action)
    (st : State Heap) (c : pc) :
  Excl g st -> is_created (instance_ st.1 g) = true ->
  st.2 !! i = Some (mkCall g c) ->
  c = AtLoad \/ c = AtWait \/ c = Returned (instance_ st.1 g) ->
  exists c',
    (run Traits s st).2 !! i = Some (mkCall g c')
    /\ (c' = AtLoad \/ c' = AtWait \/ c' = Returned (instance_ st.1 g))
    /\ (existsb (steps_of i) s = true \/ c = Returned (instance_ st.1 g) ->
        c' = Returned (instance_ st.1 g)).
Proof.
  revert st c. induction s as [|a s IH]; intros st c HE Hcr Hi Hc.
  - exists c. split; [done|]. split; [done|]. by intros [?|?].
  - rewrite run_cons.
    pose proof (same_instance _ _ _ (exec_published g a st HE Hcr)) as Hst.
    assert (Hnext : exists c1,
              (exec Traits st a).2 !! i = Some (mkCall g c1)
              /\ (c1 = AtLoad \/ c1 = AtWait
                  \/ c1 = Returned (instance_ st.1 g))
              /\ (steps_of i a = true \/ c = Returned (instance_ st.1 g) ->
                  c1 = Returned (instance_ st.1 g))).
    { destruct a as [j|g']; simpl.
      - destruct (decide (j = i)) as [->|Hne].
        + destruct (step_call_at Traits i g c st Hi) as [_ Hi'].
          eexists. split; [exact Hi'|].
          destruct Hc as [->|[->| ->]].
          * rewrite get_step_load, Hcr. simpl. split; [auto|done].
          * rewrite get_step_wait, Hcr. simpl. split; [auto|done].
          * simpl. split; [auto|done].
        + exists c. destruct (step_call_other Traits i j st) as [-> _];
            [congruence|].
          split; [done|]. split; [done|]. intros [Hj|?]; [|done].
          apply Nat.eqb_eq in Hj. congruence.
      - exists c. split; [done|]. split; [done|]. by intros [?|?]. }
    destruct Hnext as (c1 & Hi1 & Hc1 & Hr1).
    rewrite <- Hst in Hc1.
    destruct (IH (exec Traits st a) c1) as (c' & Hi' & Hc' & Hr');
      [by apply exec_excl|by rewrite Hst|done|done|].
    rewrite Hst in Hc', Hr'.
    exists c'. split; [done|]. split; [done|].
    simpl. intros [Hex|Hret].
    + apply orb_true_iff in Hex as [Ha|Hs].
      * apply Hr'. right. apply Hr1. by left.
      * apply Hr'. by left.
    + apply Hr'. right. apply Hr1. by right.
Qed.

End Published.

(** ** Single creation (C1) *)

Lemma news_le_1 {Heap : Type} (g : Tag) (st : State Heap) :
  Inv g st -> news g st.1 <= 1.
Proof.
  intros HI. pose proof (inv_word _ _ HI) as Hw. unfold word_ok in Hw.
  destruct (lifecycle (instance_ st.1 g)).
  - lia.
  - destruct Hw as [(i & c & Hi & Hg & Hc) _].
    pose proof (inv_calls _ _ HI i c Hi Hg) as Hok.
    destruct (call_pc c); simpl in *; try done; lia.
  - lia.
Qed.

(** C1, as amended.  When [Traits::New()] returns the address of an
    object (neither NULL nor the marker), any number [N >= 1] of calls of
    [get()] racing on a fresh instance, under any schedule, call [New]
    exactly once and all return the same pointer; [New] is never called a
    second time on the way, two calls that have returned never disagree,
    and five rounds that schedule every call bring all [N] to their
    return. *)
Theorem single_creation_valid_New {Heap : Type}
    (Traits : SingletonTraits Heap) :
  valid_New Traits ->
  single_creation Traits
  /\ (forall (h : Heap) (g : Tag) (N : nat) (sched : list Action),
        let st := run Traits sched (init h (replicate N g)) in
        news g st.1 <= 1
        /\ forall i j p q,
             result st.2 i = Some p -> result st.2 j = Some q -> p = q)
  /\ (forall (h : Heap) (g : Tag) (N : nat) (rounds : list (list Action)),
        forallb (covers N) rounds = true -> 5 <= length rounds ->
        all_returned
          (run Traits (concat rounds) (init h (replicate N g))).2 = true).
Proof.
  intros Hnew.
  assert (Hagree : forall (h : Heap) (g : Tag) (N : nat) (sched : list Action)
            i j p q,
            let st := run Traits sched (init h (replicate N g)) in
            result st.2 i = Some p -> result st.2 j = Some q ->
            p = q /\ news g st.1 = 1).
  { intros h g N sched i j p q st Hp Hq.
    apply result_Some in Hp as [gi Hi]. apply result_Some in Hq as [gj Hj].
    pose proof (reachable_tag Traits _ _ _ _ _ Hi) as Hti.
    pose proof (reachable_tag Traits _ _ _ _ _ Hj) as Htj.
    apply lookup_replicate in Hti as [Hti _].
    apply lookup_replicate in Htj as [Htj _]. simpl in *. subst gi gj.
    pose proof (reachable_inv Traits Hnew g h (replicate N g) sched) as HI.
    destruct (returned_word g _ _ _ HI Hi) as (Hpi & _ & Hn).
    destruct (returned_word g _ _ _ HI Hj) as (Hpj & _ & _).
    split; [congruence|done]. }
  split; [|split].
  - intros h g N sched HN st Hall. split.
    + destruct (st.2 !! 0) as [c|] eqn:H0.
      * destruct (all_returned_lookup _ _ _ Hall H0) as [p Hp].
        destruct c as [g' c]. simpl in Hp. subst c.
        assert (Hr : result st.2 0 = Some p)
          by (apply result_Some; by exists g').
        by destruct (Hagree h g N sched 0 0 p p Hr Hr).
      * apply lookup_ge_None_1 in H0. unfold st in H0.
        rewrite run_length in H0. simpl in H0. unfold spawn in H0.
        rewrite length_map, length_replicate in H0. lia.
    + intros i j p q Hp Hq. by destruct (Hagree h g N sched i j p q Hp Hq).
  - intros h g N sched st. split.
    + apply news_le_1. by apply reachable_inv.
    + intros i j p q Hp Hq. by destruct (Hagree h g N sched i j p q Hp Hq).
  - intros h g N rounds Hcov Hlen. apply fair_returns; try done.
    by rewrite length_replicate.
Qed.

Lemma single_creation_valid_New_witness :
  valid_New default_traits
  /\ all_returned
       (run default_traits
          [Step 0; Step 1; Step 0; Step 1; Step 1; Step 0; Step 0; Step 1]
          (init 0 (replicate 2 7))).2 = true
  /\ news 7
       (run default_traits
          [Step 0; Step 1; Step 0; Step 1; Step 1; Step 0; Step 0; Step 1]
          (init 0 (replicate 2 7))).1 = 1
  /\ all_returned
       (run default_traits (concat (replicate 5 [Step 1; Step 0; Step 2]))
          (init 0 (replicate 3 7))).2 = true.
Proof.
  assert (Hv : valid_New default_traits).
  { intros h. apply is_created_spec. unfold kBeingCreatedMarker. simpl. lia. }
  split; [exact Hv|]. split; [reflexivity|].
  destruct (single_creation_valid_New default_traits Hv) as (Hsc & _ & Hfair).
  split.
  - apply (Hsc 0 7 2); [lia | reflexivity].
  - apply (Hfair 0 7 3 (replicate 5 [Step 1; Step 0; Step 2]));
      [reflexivity | vm_compute; lia].
Defined.

(** C1 as stated fails for a [New] that returns NULL: call 1 loads 0
    while call 0 is at work, call 0 stores NULL, and the compare-and-swap
    of call 1 succeeds in turn, so [New] runs twice. *)
Lemma single_creation_null_New : ~ single_creation null_traits.
Proof.
  intros Hsc.
  destruct (Hsc 0 7 2
              [Step 0; Step 1; Step 0; Step 0; Step 0; Step 1; Step 1; Step 1])
    as [Hn _]; [lia | reflexivity |].
  vm_compute in Hn. discriminate.
Qed.

(** ** The word never returns to 0 (C2) *)

(** C2, as amended.  When [Traits::New()] returns the address of an object
    (neither NULL nor the marker), the word of an instantiation only
    moves forward through Uncreated (0), BeingCreated (marker 1) and
    Created(addr), under any schedule of calls of [get()] and of
    [OnExit]: once it has left 0 it never holds 0 again, at most one
    compare-and-swap ever succeeds, and at most one release-store is ever
    made, of the Created address the word then keeps; 0 is never stored. *)
Theorem word_moves_forward {Heap : Type} (Traits : SingletonTraits Heap) :
  valid_New Traits ->
  never_uncreated Traits
  /\ forall (h : Heap) (tags : list Tag) (s1 s2 : list Action) (g : Tag),
       let st1 := run Traits s1 (init h tags) in
       let st2 := run Traits s2 st1 in
       lifecycle_le (instance_ st1.1 g) (instance_ st2.1 g)
       /\ wins g st2.1 <= 1
       /\ match stored_values g (trace st2.1) with
          | [] => instance_ st2.1 g = 0%Z
                  \/ instance_ st2.1 g = kBeingCreatedMarker
          | [addr] => instance_ st2.1 g = addr /\ is_created addr = true
          | _ => False
          end.
Proof.
  intros Hnew.
  assert (Hle : forall h tags s1 s2 g,
            lifecycle_le (instance_ (run Traits s1 (init h tags)).1 g)
              (instance_ (run Traits s2 (run Traits s1 (init h tags))).1 g)).
  { intros h tags s1 s2 g. apply run_word_mono; [done|].
    by apply reachable_inv. }
  split.
  - intros h tags s1 s2 g st1 Hne.
    eapply lifecycle_le_nonzero; [apply Hle|done].
  - intros h tags s1 s2 g st1 st2. split; [apply Hle|].
    assert (HI : Inv g st2).
    { unfold st2, st1. rewrite <- run_app. by apply reachable_inv. }
    pose proof (inv_word _ _ HI) as Hw. unfold word_ok in Hw.
    destruct (lifecycle_spec (instance_ st2.1 g))
      as [[H0 Hl]|[[Hm Hl]|[Hc Hl]]]; rewrite Hl in Hw.
    + destruct Hw as (_ & -> & ->). split; [lia|by left].
    + destruct Hw as (_ & -> & ->). split; [lia|by right].
    + destruct Hw as (_ & -> & ->). split; [lia|done].
Qed.

Lemma word_moves_forward_witness :
  valid_New default_traits
  /\ instance_ (run default_traits [Step 0; Step 0] (init 0 [7])).1 7 <> 0%Z
  /\ instance_ (run default_traits [Step 0; Step 0]
                  (run default_traits [Step 0; Step 0] (init 0 [7]))).1 7
     <> 0%Z.
Proof.
  assert (Hv : valid_New default_traits).
  { intros h. apply is_created_spec. unfold kBeingCreatedMarker. simpl. lia. }
  split; [exact Hv|]. split; [vm_compute; discriminate|].
  destruct (word_moves_forward default_traits Hv) as [Hnever _].
  apply (Hnever 0 [7] [Step 0; Step 0] [Step 0; Step 0] 7).
  vm_compute. discriminate.
Defined.

(** C2 as stated fails for a [New] that returns NULL: the release-store of
    singleton.h:181 then writes 0 over the marker. *)
Lemma word_returns_to_0_null_New : ~ never_uncreated null_traits.
Proof.
  intros Hnever.
  apply (Hnever 0 [7] [Step 0; Step 0] [Step 0; Step 0] 7).
  - vm_compute. discriminate.
  - reflexivity.
Qed.

(** ** The registry and [Traits::Delete] (C5, C7, C10) *)

Section Registry.

Context {Heap : Type}.
Variable Traits : SingletonTraits Heap.

Lemma get_step_no_delete (i : nat) (g : Tag) (c : pc) (w : World Heap) :
  count_ev is_delete (trace (get_step Traits i g c w).2)
  = count_ev is_delete (trace w).
Proof.
  destruct c; step_cases; rewrite ?count_ev_snoc; simpl; lia.
Qed.

Lemma exec_registry (st : State Heap) (a : Action) :
  at_exit (exec Traits st a).1 = at_exit st.1
  /\ count_ev is_delete (trace (exec Traits st a).1)
     = count_ev is_delete (trace st.1).
Proof.
  destruct a as [i|g]; simpl; [|done].
  destruct st as [w ts]. destruct (ts !! i) as [c|] eqn:Hi.
  - rewrite (step_call_lookup _ _ _ _ _ Hi). simpl. split.
    + apply get_step_frame.
    + apply get_step_no_delete.
  - by rewrite step_call_none.
Qed.

(** No schedule registers a callback or calls [Traits::Delete]. *)
Lemma run_registry (s : list Action) (st : State Heap) :
  at_exit (run Traits s st).1 = at_exit st.1
  /\ count_ev is_delete (trace (run Traits s st).1)
     = count_ev is_delete (trace st.1).
Proof.
  apply (run_ind Traits (fun st' =>
    at_exit st'.1 = at_exit st.1
    /\ count_ev is_delete (trace st'.1) = count_ev is_delete (trace st.1)));
    [|done].
  intros st' a [IH1 IH2]. destruct (exec_registry st' a) as [-> ->]. done.
Qed.

Lemma run_without_exits (s : list Action) (st : State Heap) :
  run Traits s st = run Traits (without_exits s) st.
Proof.
  revert st. induction s as [|[i|g] s IH]; intros st; simpl; [done|..].
  - apply IH.
  - rewrite <- IH. by destruct st.
Qed.

End Registry.

(** C5.  With [kRegisterAtExit] set, the header of singleton.h (lines
    59-60, 72-75 and 121-125) and the claim have the instance registered
    for deletion at exit.  The code does not: one call of [get()] on a
    fresh instance of such a policy creates the instance, publishes it and
    returns it, and the registry is still empty, since the registration of
    singleton.h:184-185 is commented out and [get()] never reads the
    flag. *)
Theorem registration_missing :
  kRegisterAtExit registering_traits = true
  /\ (run registering_traits [Step 0; Step 0; Step 0; Step 0]
        (init 0 [7])).2 = [mkCall 7 (Returned 4096%Z)]
  /\ instance_ (run registering_traits [Step 0; Step 0; Step 0; Step 0]
                  (init 0 [7])).1 7 = 4096%Z
  /\ at_exit (run registering_traits [Step 0; Step 0; Step 0; Step 0]
                (init 0 [7])).1 = [].
Proof. repeat split. Qed.

(** So the claim, as it is stated, fails on the code. *)
Lemma registration_once_fails : ~ registration_once registering_traits.
Proof.
  intros Hreg.
  assert (H : length (at_exit (run registering_traits
                [Step 0; Step 0; Step 0; Step 0]
                (init 0 (replicate 1 7))).1) = 1).
  { apply Hreg; [reflexivity | lia | reflexivity]. }
  vm_compute in H. discriminate.
Qed.

(** C7.  [DefaultSingletonTraits] has [kRegisterAtExit = false]; whatever
    the number of calls of [get()] and however they and [OnExit] are
    scheduled, no callback is registered and [Traits::Delete] is not
    called. *)
Theorem default_traits_leak {Heap : Type}
    (operator_new : Heap -> AtomicWord * Heap)
    (operator_delete : AtomicWord -> Heap -> Heap)
    (h : Heap) (tags : list Tag) (sched : list Action) :
  let Traits := DefaultSingletonTraits operator_new operator_delete in
  kRegisterAtExit Traits = false
  /\ at_exit (run Traits sched (init h tags)).1 = []
  /\ count_ev is_delete (trace (run Traits sched (init h tags)).1) = 0.
Proof.
  intros Traits. split; [reflexivity|].
  by destruct (run_registry Traits sched (init h tags)) as [-> ->].
Qed.

(** C10.  [OnExit] is a no-op: it returns the world it was given, so the
    word keeps its value, the heap and the trace are as before (no
    [Traits::Delete]), and a schedule does the same with and without its
    [OnExit] actions. *)
Theorem OnExit_noop {Heap : Type} (Traits : SingletonTraits Heap)
    (g : Tag) (w : World Heap) (ts : list Call) (sched : list Action) :
  OnExit g w = w
  /\ exec Traits (w, ts) (Exit g) = (w, ts)
  /\ instance_ (OnExit g w) g = instance_ w g
  /\ count_ev is_delete (trace (OnExit g w)) = count_ev is_delete (trace w)
  /\ run Traits sched (w, ts) = run Traits (without_exits sched) (w, ts).
Proof.
  repeat split. apply run_without_exits.
Qed.

(** ** One call run alone (C3, C9) *)

Section Alone.

Context {Heap : Type}.
Variable Traits : SingletonTraits Heap.

Lemma get_loop_returned (fuel : nat) (i : nat) (g : Tag) (p : AtomicWord)
    (w : World Heap) :
  get_loop Traits fuel i g (Returned p) w = Some (p, w).
Proof. by destruct fuel. Qed.

(** The fast path: the word holds an address. *)
Lemma get_created (fuel : nat) (i : nat) (g : Tag) (w : World Heap) :
  is_created (instance_ w g) = true ->
  get Traits (S fuel) i g w
  = Some (instance_ w g, log i g (OpAcquireLoad (instance_ w g)) w).
Proof.
  intros Hc. unfold get. simpl. unfold Acquire_Load. rewrite Hc.
  apply get_loop_returned.
Qed.

Lemma get_loop_S (fuel : nat) (i : nat) (g : Tag) (c : pc) (w : World Heap) :
  is_returned c = false ->
  get_loop Traits (S fuel) i g c w
  = get_loop Traits fuel i g (get_step Traits i g c w).1
                             (get_step Traits i g c w).2.
Proof.
  intros Hc. destruct c; try done; cbn [get_loop];
    match goal with
    | |- context [get_step ?T ?i ?g ?c ?w] => by destruct (get_step T i g c w)
    end.
Qed.

(** The creator path: the word holds 0. *)
Lemma get_uncreated (fuel : nat) (i : nat) (g : Tag) (w : World Heap) :
  instance_ w g = 0%Z ->
  let newval := (New Traits (heap w)).1 in
  exists w',
    get Traits (4 + fuel) i g w = Some (newval, w')
    /\ instance_ w' g = newval
    /\ (forall g', g' <> g -> instance_ w' g' = instance_ w g')
    /\ heap w' = (New Traits (heap w)).2
    /\ at_exit w' = at_exit w
    /\ trace w'
       = trace w ++ [mkEvent i g (OpAcquireLoad 0%Z);
                     mkEvent i g (OpAcquireCAS 0%Z kBeingCreatedMarker 0%Z);
                     mkEvent i g (OpNew newval);
                     mkEvent i g (OpReleaseStore newval)].
Proof.
  intros H0 newval. unfold get.
  change (4 + fuel) with (S (S (S (S fuel)))).
  rewrite get_loop_S, get_step_load by done. rewrite H0. simpl fst. simpl snd.
  rewrite get_loop_S, get_step_cas by done. simpl instance_.
  rewrite H0. simpl fst. simpl snd.
  rewrite get_loop_S, get_step_new by done. simpl fst. simpl snd.
  rewrite get_loop_S, get_step_store by done. simpl fst. simpl snd.
  rewrite get_loop_returned.
  eexists. split; [reflexivity|]. simpl.
  rewrite decide_True by done.
  split; [done|]. split.
  { intros g' Hg'. rewrite !decide_False by done. done. }
  split; [done|]. split; [done|].
  by rewrite <- !app_assoc.
Qed.

Lemma count_ev_app (f : Event -> bool) (tr1 tr2 : list Event) :
  count_ev f (tr1 ++ tr2) = count_ev f tr1 + count_ev f tr2.
Proof. induction tr1 as [|e tr1 IH]; simpl; [done|]. rewrite IH. lia. Qed.

Lemma news_after_create (g : Tag) (i : nat) (v : AtomicWord)
    (w w' : World Heap) :
  trace w' = trace w ++ [mkEvent i g (OpAcquireLoad 0%Z);
                         mkEvent i g (OpAcquireCAS 0%Z kBeingCreatedMarker 0%Z);
                         mkEvent i g (OpNew v);
                         mkEvent i g (OpReleaseStore v)] ->
  news g w' = news g w + 1.
Proof.
  intros Htr. unfold news. rewrite Htr, count_ev_app. simpl.
  rewrite !is_new_mk, Nat.eqb_refl. lia.
Qed.

Lemma get_repeat_created (fuel k : nat) (i : nat) (g : Tag) (w : World Heap) :
  is_created (instance_ w g) = true ->
  exists w',
    get_repeat Traits (S fuel) k i g w = Some (replicate k (instance_ w g), w')
    /\ instance_ w' = instance_ w
    /\ heap w' = heap w
    /\ at_exit w' = at_exit w
    /\ forall g', news g' w' = news g' w.
Proof.
  revert i w. induction k as [|k IH]; intros i w Hc.
  - exists w. by repeat split.
  - cbn [get_repeat]. rewrite get_created by done.
    destruct (IH (S i) (log i g (OpAcquireLoad (instance_ w g)) w) Hc)
      as (w' & -> & Hi & Hh & Ha & Hn).
    exists w'. repeat split; try done.
    intros g'. rewrite Hn. apply log_load_same_on.
Qed.

End Alone.

(** C3.  In every state whose word holds Created(addr), a call of [get()]
    returns [addr] with its first statement, the acquire-load: it does not
    call [Traits::New()] and changes neither the word nor the heap; any
    number of calls one after the other all return [addr].  Among other
    calls too: from a state reached from start-up whose word holds
    Created(addr), under any schedule and any creation policy, the word
    and the number of [New] calls stay as they are and a call that starts
    returns [addr] the first time it is scheduled. *)
Theorem get_after_creation {Heap : Type} (Traits : SingletonTraits Heap)
    (w : World Heap) (ts : list Call) (i : nat) (g : Tag) (addr : AtomicWord)
    (fuel k : nat)
    (h : Heap) (tags : list Tag) (s0 s : list Action) (j : nat) :
  ts !! i = Some (mkCall g AtLoad) ->
  instance_ w g = addr -> is_created addr = true ->
  let w1 := log i g (OpAcquireLoad addr) w in
  step_call Traits i (w, ts) = (w1, <[i := mkCall g (Returned addr)]> ts)
  /\ get Traits (S fuel) i g w = Some (addr, w1)
  /\ instance_ w1 = instance_ w /\ heap w1 = heap w
  /\ (forall g', news g' w1 = news g' w)
  /\ (exists w',
       get_repeat Traits (S fuel) k i g w = Some (replicate k addr, w')
       /\ instance_ w' = instance_ w /\ heap w' = heap w
       /\ forall g', news g' w' = news g' w)
  /\ (let st := run Traits s0 (init h tags) in
      st.2 !! j = Some (mkCall g AtLoad) ->
      is_created (instance_ st.1 g) = true ->
      existsb (steps_of j) s = true ->
      (run Traits s st).2 !! j
      = Some (mkCall g (Returned (instance_ st.1 g)))
      /\ instance_ (run Traits s st).1 g = instance_ st.1 g
      /\ news g (run Traits s st).1 = news g st.1).
Proof.
  intros Hi Ha Hc w1. subst addr.
  split; [|split; [|split; [|split; [|split; [|split]]]]]; try done.
  - rewrite (step_call_lookup _ _ _ _ _ Hi). simpl call_tag. simpl call_pc.
    by rewrite get_step_load, Hc.
  - by apply get_created.
  - intros g'. apply log_load_same_on.
  - destruct (get_repeat_created Traits fuel k i g w Hc)
      as (w' & Hr & Hinst & Hh & _ & Hn).
    exists w'. by repeat split.
  - intros st Hj Hcr Hex.
    pose proof (reachable_excl Traits g h tags s0) as HE. fold st in HE.
    destruct (returns_published Traits g j s st AtLoad HE Hcr Hj)
      as (c' & Hj' & _ & Hr'); [auto|].
    destruct (run_published Traits g s st HE Hcr) as [Hinst Hn _ _].
    rewrite Hj', Hr'; [done|by left].
Qed.

Lemma get_after_creation_witness :
  created_state.2 !! 1 = Some (mkCall 7 AtLoad)
  /\ instance_ created_state.1 7 = 4096%Z
  /\ is_created 4096%Z = true
  /\ get default_traits 1 1 7 created_state.1
     = Some (4096%Z, log 1 7 (OpAcquireLoad 4096%Z) created_state.1)
  /\ (run default_traits [Exit 7; Step 1; Step 0] created_state).2 !! 1
     = Some (mkCall 7 (Returned 4096%Z)).
Proof.
  assert (H1 : created_state.2 !! 1 = Some (mkCall 7 AtLoad)) by reflexivity.
  assert (H2 : instance_ created_state.1 7 = 4096%Z) by reflexivity.
  assert (H3 : is_created 4096%Z = true) by reflexivity.
  split; [exact H1|]. split; [exact H2|]. split; [exact H3|].
  split.
  - exact (proj1 (proj2
      (get_after_creation default_traits created_state.1 created_state.2
         1 7 4096%Z 0 3 0 [7; 7] [] [] 1 H1 H2 H3))).
  - exact (proj1 (proj2 (proj2 (proj2 (proj2 (proj2 (proj2
      (get_after_creation default_traits created_state.1 created_state.2
         1 7 4096%Z 0 3 0 [7; 7] [Step 0; Step 0; Step 0; Step 0]
         [Exit 7; Step 1; Step 0] 1 H1 H2 H3))))))
      eq_refl eq_refl eq_refl)).
Defined.

(** C9.  When [Traits::New()] returns NULL on the creator path, [get()]
    has put the marker in the word with its compare-and-swap, calls [New]
    on the current heap, release-stores 0 over the marker, so that the
    word is Uncreated again, and returns NULL.  The next call of [get()]
    takes the creator path in turn: it calls [New] a second time, on the
    heap the first call left, and stores and returns what that call
    gives. *)
Theorem get_null_New {Heap : Type} (Traits : SingletonTraits Heap)
    (w : World Heap) (i j : nat) (g : Tag) (fuel : nat) :
  instance_ w g = 0%Z -> (New Traits (heap w)).1 = 0%Z ->
  let wl := (get_step Traits i g AtLoad w).2 in
  let wc := (get_step Traits i g AtCAS wl).2 in
  let wn := (get_step Traits i g AtNew wc).2 in
  let w1 := (get_step Traits i g (AtStore 0%Z) wn).2 in
  (* the compare-and-swap takes the lock *)
  ((get_step Traits i g AtCAS wl).1 = AtNew
   /\ instance_ wc g = kBeingCreatedMarker)
  (* New runs on the heap of the caller, under the lock *)
  /\ ((get_step Traits i g AtNew wc).1 = AtStore 0%Z
      /\ heap wn = (New Traits (heap w)).2
      /\ instance_ wn g = kBeingCreatedMarker)
  (* the call as a whole *)
  /\ (get Traits (4 + fuel) i g w = Some (0%Z, w1)
      /\ trace w1
         = trace w ++ [mkEvent i g (OpAcquireLoad 0%Z);
                       mkEvent i g (OpAcquireCAS 0%Z kBeingCreatedMarker 0%Z);
                       mkEvent i g (OpNew 0%Z);
                       mkEvent i g (OpReleaseStore 0%Z)]
      /\ instance_ w1 g = 0%Z
      /\ lifecycle (instance_ w1 g) = Uncreated
      /\ (forall g', g' <> g -> instance_ w1 g' = instance_ w g')
      /\ heap w1 = (New Traits (heap w)).2
      /\ news g w1 = news g w + 1)
  (* the next call *)
  /\ exists w2,
       get Traits (4 + fuel) j g w1 = Some ((New Traits (heap w1)).1, w2)
       /\ instance_ w2 g = (New Traits (heap w1)).1
       /\ heap w2 = (New Traits (New Traits (heap w)).2).2
       /\ news g w2 = news g w + 2.
Proof.
  intros H0 Hnull wl wc wn w1.
  assert (Hcas : get_step Traits i g AtCAS wl
                 = (AtNew,
                    log i g (OpAcquireCAS 0%Z kBeingCreatedMarker 0%Z)
                      (set_instance g kBeingCreatedMarker wl))).
  { rewrite get_step_cas. unfold wl. rewrite get_step_load. simpl.
    by rewrite H0. }
  assert (Hnew : get_step Traits i g AtNew wc
                 = (AtStore 0%Z,
                    log i g (OpNew 0%Z)
                      (mkWorld (instance_ wc) (New Traits (heap w)).2
                               (at_exit wc) (trace wc)))).
  { rewrite get_step_new. unfold wc. rewrite Hcas. unfold wl.
    rewrite get_step_load. simpl. by rewrite Hnull. }
  assert (Hget : get Traits (4 + fuel) i g w = Some (0%Z, w1)).
  { unfold get. change (4 + fuel) with (S (S (S (S fuel)))).
    rewrite get_loop_S by done. fold wl.
    replace (get_step Traits i g AtLoad w).1 with AtCAS
      by (rewrite get_step_load, H0; done).
    rewrite get_loop_S by done. fold wc. rewrite Hcas. simpl fst.
    rewrite get_loop_S by done. fold wn. rewrite Hnew. simpl fst.
    rewrite get_loop_S by done. fold w1. simpl fst.
    apply get_loop_returned. }
  assert (Htr : trace w1
                = trace w ++ [mkEvent i g (OpAcquireLoad 0%Z);
                    mkEvent i g (OpAcquireCAS 0%Z kBeingCreatedMarker 0%Z);
                    mkEvent i g (OpNew 0%Z);
                    mkEvent i g (OpReleaseStore 0%Z)]).
  { unfold w1, wn. rewrite Hnew. unfold wc. rewrite Hcas. unfold wl.
    rewrite get_step_load. simpl. rewrite H0. by rewrite <- !app_assoc. }
  assert (Hi1 : instance_ w1 g = 0%Z).
  { unfold w1. simpl. by rewrite decide_True. }
  assert (Hh1 : heap w1 = (New Traits (heap w)).2).
  { unfold w1, wn. by rewrite Hnew. }
  assert (Hn1 : news g w1 = news g w + 1)
    by (by eapply news_after_create).
  split; [|split; [|split]].
  - rewrite Hcas. split; [done|]. unfold wc. rewrite Hcas. simpl.
    by rewrite decide_True.
  - rewrite Hnew. split; [done|]. unfold wn. rewrite Hnew. simpl.
    split; [done|]. unfold wc. rewrite Hcas. simpl. by rewrite decide_True.
  - split; [done|]. split; [done|]. split; [done|].
    split; [by rewrite Hi1|]. split; [|done].
    intros g' Hg'. unfold w1, wn. rewrite Hnew. unfold wc. rewrite Hcas.
    unfold wl. rewrite get_step_load. simpl.
    rewrite !decide_False by done. done.
  - destruct (get_uncreated Traits fuel j g w1 Hi1)
      as (w2 & Hget2 & Hi2 & _ & Hh2 & _ & Htr2).
    exists w2. split; [done|]. split; [done|].
    split; [by rewrite Hh2, Hh1|].
    rewrite (news_after_create g j _ w1 w2 Htr2). lia.
Qed.

Lemma get_null_New_witness :
  instance_ (fresh 1) 7 = 0%Z
  /\ (New flaky_traits (heap (fresh 1))).1 = 0%Z
  /\ instance_
       (get_step flaky_traits 0 7 AtCAS
          (get_step flaky_traits 0 7 AtLoad (fresh 1)).2).2 7
     = kBeingCreatedMarker
  /\ exists w1 w2,
       get flaky_traits 4 0 7 (fresh 1) = Some (0%Z, w1)
       /\ instance_ w1 7 = 0%Z /\ heap w1 = 2
       /\ get flaky_traits 4 1 7 w1 = Some (4128%Z, w2)
       /\ instance_ w2 7 = 4128%Z /\ heap w2 = 3
       /\ news 7 w2 = 2.
Proof.
  split; [reflexivity|]. split; [reflexivity|].
  destruct (get_null_New flaky_traits (fresh 1) 0 1 7 0 eq_refl eq_refl)
    as ([_ Hm] & _ & (Hget & _ & Hi1 & _ & _ & Hh1 & _)
        & w2 & Hget2 & Hi2 & Hh2 & Hn2).
  split; [exact Hm|].
  eexists. exists w2.
  split; [exact Hget|]. split; [exact Hi1|]. split; [exact Hh1|].
  split; [exact Hget2|]. split; [exact Hi2|]. split; [exact Hh2|exact Hn2].
Defined.

(** ** The creator path among other calls (C4) *)

Section Creator.

Context {Heap : Type}.
Variable Traits : SingletonTraits Heap.

Lemma events_of_log (i : nat) (g : Tag) (o : Op) (w : World Heap) :
  events_of i (trace (log i g o w)) = events_of i (trace w) ++ [o].
Proof. simpl. rewrite events_of_snoc. simpl. by rewrite Nat.eqb_refl. Qed.

(** Calls that are not scheduled stay where they are. *)
Lemma run_idle (i : nat) (s : list Action) (st : State Heap) :
  idle i s = true ->
  (run Traits s st).2 !! i = st.2 !! i
  /\ events_of i (trace (run Traits s st).1) = events_of i (trace st.1).
Proof.
  revert st. induction s as [|a s IH]; intros st Hidle; [done|].
  simpl in Hidle. apply andb_true_iff in Hidle as [Ha Hidle].
  rewrite run_cons. destruct (IH (exec Traits st a) Hidle) as [-> ->].
  destruct a as [j|g]; simpl; [|done].
  apply step_call_other. simpl in Ha. apply negb_true_iff, Nat.eqb_neq in Ha.
  congruence.
Qed.

End Creator.

(** C4.  A call of [get()] that loads 0 and whose compare-and-swap from 0
    to the marker succeeds calls [Traits::New()] once, release-stores the
    pointer [New] returned into the word, and returns that pointer,
    whatever the other calls do in between. *)
Theorem creator_path {Heap : Type} (Traits : SingletonTraits Heap)
    (w : World Heap) (ts : list Call) (i : nat) (g : Tag)
    (s0 s1 s2 : list Action) :
  ts !! i = Some (mkCall g AtLoad) ->
  instance_ w g = 0%Z ->
  idle i s0 = true -> idle i s1 = true -> idle i s2 = true ->
  instance_ (run Traits s0 (step_call Traits i (w, ts))).1 g = 0%Z ->
  let st1 := run Traits s0 (step_call Traits i (w, ts)) in
  let st2 := step_call Traits i st1 in
  let st3 := run Traits s1 st2 in
  let newval := (New Traits (heap st3.1)).1 in
  let st4 := step_call Traits i st3 in
  let st5 := run Traits s2 st4 in
  let st6 := step_call Traits i st5 in
  instance_ st2.1 g = kBeingCreatedMarker
  /\ heap st4.1 = (New Traits (heap st3.1)).2
  /\ instance_ st6.1 g = newval
  /\ st6.2 !! i = Some (mkCall g (Returned newval))
  /\ events_of i (trace st6.1)
     = events_of i (trace w)
       ++ [OpAcquireLoad 0%Z;
           OpAcquireCAS 0%Z kBeingCreatedMarker 0%Z;
           OpNew newval;
           OpReleaseStore newval].
Proof.
  intros Hi H0 Hs0 Hs1 Hs2 Hcas st1 st2 st3 newval st4 st5 st6.
  (* the load *)
  destruct (step_call_at Traits i g AtLoad (w, ts) Hi) as [Hw0 Hc0].
  rewrite get_step_load in Hw0, Hc0. simpl in Hw0, Hc0.
  rewrite H0 in Hw0, Hc0. simpl in Hc0.
  destruct (run_idle Traits i s0 (step_call Traits i (w, ts)) Hs0)
    as [Hc1 He1].
  fold st1 in Hc1, He1. rewrite Hc0 in Hc1. rewrite Hw0, events_of_log in He1.
  (* the compare-and-swap *)
  destruct (step_call_at Traits i g AtCAS st1 Hc1) as [Hw2 Hc2].
  fold st2 in Hw2, Hc2. rewrite get_step_cas in Hw2, Hc2.
  fold st1 in Hcas. rewrite Hcas in Hw2, Hc2. simpl in Hw2, Hc2.
  destruct (run_idle Traits i s1 st2 Hs1) as [Hc3 He3].
  fold st3 in Hc3, He3. rewrite Hc2 in Hc3.
  rewrite Hw2, events_of_log in He3.
  (* Traits::New() *)
  destruct (step_call_at Traits i g AtNew st3 Hc3) as [Hw4 Hc4].
  fold st4 in Hw4, Hc4. rewrite get_step_new in Hw4, Hc4.
  fold newval in Hw4, Hc4. simpl in Hw4, Hc4.
  destruct (run_idle Traits i s2 st4 Hs2) as [Hc5 He5].
  fold st5 in Hc5, He5. rewrite Hc4 in Hc5.
  rewrite Hw4, events_of_log in He5.
  (* the release-store *)
  destruct (step_call_at Traits i g (AtStore newval) st5 Hc5) as [Hw6 Hc6].
  fold st6 in Hw6, Hc6. rewrite get_step_store in Hw6, Hc6.
  simpl in Hw6, Hc6.
  split; [|split; [|split; [|split]]].
  - rewrite Hw2. simpl. by rewrite decide_True.
  - by rewrite Hw4.
  - rewrite Hw6. simpl. by rewrite decide_True.
  - done.
  - rewrite Hw6, events_of_log. unfold set_instance in *.
    simpl trace in *. rewrite He5, He3, He1. by rewrite <- !app_assoc.
Qed.

Lemma creator_path_witness :
  (init 0 [7; 7]).2 !! 0 = Some (mkCall 7 AtLoad)
  /\ instance_ (fresh 0) 7 = 0%Z
  /\ idle 0 [Step 1] = true
  /\ instance_ (run default_traits [Step 1]
                  (step_call default_traits 0 (init 0 [7; 7]))).1 7 = 0%Z
  /\ events_of 0
       (trace (run default_traits
                 [Step 0; Step 1; Step 0; Step 1; Step 0; Step 1; Step 0]
                 (init 0 [7; 7])).1)
     = [OpAcquireLoad 0%Z; OpAcquireCAS 0%Z kBeingCreatedMarker 0%Z;
        OpNew 4096%Z; OpReleaseStore 4096%Z].
Proof.
  split; [reflexivity|]. split; [reflexivity|]. split; [reflexivity|].
  split; [reflexivity|].
  exact (proj2 (proj2 (proj2 (proj2
    (creator_path default_traits (fresh 0) (spawn [7; 7]) 0 7
       [Step 1] [Step 1] [Step 1]
       eq_refl eq_refl eq_refl eq_refl eq_refl eq_refl))))).
Defined.

(** ** Two instantiations (C8) *)

Section Tags.

Context {Heap : Type}.
Variable Traits : SingletonTraits Heap.


End Tags.




(** ** The wait loop (C6) *)

(** C6, as amended.  In any state reached from start-up: a call whose
    compare-and-swap finds the word not 0 enters the wait loop; a call
    whose first load saw the marker enters it too, provided [New] returns
    addresses, so that the compare-and-swap the call still attempts
    fails; each turn of the loop re-loads the word and goes round again
    while the word does not hold Created(addr); once the creator has
    published Created(addr), the waiting call returns [addr] the first
    time it is scheduled, whatever else is scheduled around it and
    whatever the creation policy; and when [New] returns addresses, five
    rounds that schedule every call, the creator among them, bring every
    call out of the loop. *)
Theorem wait_for_instance {Heap : Type} (Traits : SingletonTraits Heap)
    (h : Heap) (tags : list Tag) (s0 s : list Action) (i : nat) (g : Tag)
    (rounds : list (list Action)) :
  let st := run Traits s0 (init h tags) in
  (st.2 !! i = Some (mkCall g AtCAS) -> instance_ st.1 g <> 0%Z ->
     (step_call Traits i st).2 !! i = Some (mkCall g AtWait))
  /\ (valid_New Traits ->
      st.2 !! i = Some (mkCall g AtLoad) ->
      instance_ st.1 g = kBeingCreatedMarker -> idle i s = true ->
      (run Traits (Step i :: s ++ [Step i]) st).2 !! i
      = Some (mkCall g AtWait))
  /\ (st.2 !! i = Some (mkCall g AtWait) ->
      is_created (instance_ st.1 g) = false ->
      step_call Traits i st
      = (log i g (OpAcquireLoad (instance_ st.1 g)) st.1, st.2))
  /\ (st.2 !! i = Some (mkCall g AtWait) ->
      is_created (instance_ st.1 g) = true ->
      existsb (steps_of i) s = true ->
      (run Traits s st).2 !! i
      = Some (mkCall g (Returned (instance_ st.1 g))))
  /\ (valid_New Traits ->
      forallb (covers (length tags)) rounds = true -> 5 <= length rounds ->
      all_returned (run Traits (concat rounds) (init h tags)).2 = true).
Proof.
  intros st.
  assert (Hcas : forall st' : State Heap,
            st'.2 !! i = Some (mkCall g AtCAS) -> instance_ st'.1 g <> 0%Z ->
            (step_call Traits i st').2 !! i = Some (mkCall g AtWait)).
  { intros st' Hi Hne.
    destruct (step_call_at Traits i g AtCAS st' Hi) as [_ ->].
    rewrite get_step_cas. apply Z.eqb_neq in Hne. by rewrite Hne. }
  split; [apply Hcas|]. split; [|split; [|split]].
  - intros Hnew Hi Hm Hidle. rewrite run_cons, run_snoc. simpl exec at 2.
    assert (HI : Inv g st) by by apply reachable_inv.
    destruct (step_call_at Traits i g AtLoad st Hi) as [Hw1 Hc1].
    rewrite get_step_load, Hm in Hw1, Hc1. simpl in Hw1, Hc1.
    destruct (run_idle Traits i s (step_call Traits i st) Hidle) as [Hc2 _].
    rewrite Hc1 in Hc2. simpl exec. apply Hcas; [done|].
    eapply lifecycle_le_nonzero.
    + apply run_word_mono; [done|]. by apply step_inv.
    + rewrite Hw1. simpl. by rewrite Hm.
  - intros Hi Hc. destruct st as [w ts]. simpl in *.
    rewrite (step_call_lookup _ _ _ _ _ Hi). simpl call_tag. simpl call_pc.
    rewrite get_step_wait, Hc. simpl. f_equal. by apply list_insert_id.
  - intros Hi Hc Hex.
    destruct (returns_published Traits g i s st AtWait
                (reachable_excl Traits g h tags s0) Hc Hi)
      as (c' & Hi' & _ & Hr'); [auto|].
    rewrite Hi', Hr'; [done|by left].
  - intros Hnew. by apply fair_returns.
Qed.

Lemma wait_for_instance_witness :
  valid_New default_traits
  (* a compare-and-swap that finds the marker *)
  /\ (step_call default_traits 1
        (run default_traits [Step 0; Step 1; Step 0] (init 0 [7; 7]))).2 !! 1
     = Some (mkCall 7 AtWait)
  (* a first load that sees the marker *)
  /\ (run default_traits (Step 1 :: [Step 0] ++ [Step 1])
        (run default_traits [Step 0; Step 0] (init 0 [7; 7]))).2 !! 1
     = Some (mkCall 7 AtWait)
  (* a turn of the loop on the marker *)
  /\ step_call default_traits 1
       (run default_traits [Step 0; Step 1; Step 0; Step 1] (init 0 [7; 7]))
     = (log 1 7 (OpAcquireLoad kBeingCreatedMarker)
          (run default_traits [Step 0; Step 1; Step 0; Step 1]
             (init 0 [7; 7])).1,
        (run default_traits [Step 0; Step 1; Step 0; Step 1]
           (init 0 [7; 7])).2)
  (* the return after the publication *)
  /\ (run default_traits [Exit 7; Step 1; Step 0]
        (run default_traits [Step 0; Step 1; Step 0; Step 1; Step 0; Step 0]
           (init 0 [7; 7]))).2 !! 1
     = Some (mkCall 7 (Returned 4096%Z))
  (* five fair rounds *)
  /\ all_returned
       (run default_traits (concat (replicate 5 [Step 0; Step 1]))
          (init 0 [7; 7])).2 = true.
Proof.
  assert (Hv : valid_New default_traits).
  { intros h. apply is_created_spec. unfold kBeingCreatedMarker. simpl. lia. }
  split; [exact Hv|]. split; [|split; [|split; [|split]]].
  - exact (proj1
      (wait_for_instance default_traits 0 [7; 7] [Step 0; Step 1; Step 0]
         [] 1 7 []) eq_refl ltac:(vm_compute; discriminate)).
  - exact (proj1 (proj2
      (wait_for_instance default_traits 0 [7; 7] [Step 0; Step 0]
         [Step 0] 1 7 [])) Hv eq_refl eq_refl eq_refl).
  - exact (proj1 (proj2 (proj2
      (wait_for_instance default_traits 0 [7; 7]
         [Step 0; Step 1; Step 0; Step 1] [] 1 7 []))) eq_refl eq_refl).
  - exact (proj1 (proj2 (proj2 (proj2
      (wait_for_instance default_traits 0 [7; 7]
         [Step 0; Step 1; Step 0; Step 1; Step 0; Step 0]
         [Exit 7; Step 1; Step 0] 1 7 [])))) eq_refl eq_refl eq_refl).
  - exact (proj2 (proj2 (proj2 (proj2
      (wait_for_instance default_traits 0 [7; 7] [] [] 0 7
         (replicate 5 [Step 0; Step 1]))))) Hv eq_refl
      ltac:(vm_compute; lia)).
Defined.

(** C6 as stated fails for a [New] that returns NULL: call 1 loads the
    marker while call 0 is creating, call 0 stores NULL, and the
    compare-and-swap of call 1 (singleton.h:173) finds 0 and succeeds, so
    call 1 goes on to create instead of waiting. *)
Lemma marker_seen_creates_null_New : ~ marker_seen_waits null_traits.
Proof.
  intros Hw.
  assert (H : (run null_traits (Step 1 :: [Step 0; Step 0] ++ [Step 1])
                 (run null_traits [Step 0; Step 0] (init 0 [7; 7]))).2 !! 1
              = Some (mkCall 7 AtWait)).
  { apply (Hw 0 [7; 7] [Step 0; Step 0] [Step 0; Step 0] 1 7);
      reflexivity. }
  vm_compute in H. discriminate.
Qed.

(** * Further properties of [Singleton::get] *)

(** ** The spinlock discipline, for every creation policy *)

(** X1.  In every state reached from start-up, whatever [Traits::New()]
    returns: at most one call of an instantiation is between its
    successful compare-and-swap and its release-store, the word holds the
    marker while it is there, and an action changes the word only as the
    compare-and-swap of a call that finds 0 (to the marker) or as the
    release-store of the call that holds the marker (to its [newval]). *)
Theorem spinlock_discipline {Heap : Type} (Traits : SingletonTraits Heap)
    (h : Heap) (tags : list Tag) (sched : list Action) (a : Action)
    (g : Tag) :
  let st := run Traits sched (init h tags) in
  (forall i j ci cj,
     st.2 !! i = Some ci -> st.2 !! j = Some cj ->
     call_tag ci = g -> call_tag cj = g ->
     creating (call_pc ci) = true -> creating (call_pc cj) = true -> i = j)
  /\ (forall i c, st.2 !! i = Some c -> call_tag c = g ->
        creating (call_pc c) = true ->
        instance_ st.1 g = kBeingCreatedMarker)
  /\ word_step g st a (instance_ st.1 g) (instance_ (exec Traits st a).1 g).
Proof.
  intros st. pose proof (reachable_excl Traits g h tags sched) as HE.
  fold st in HE. split; [apply HE|]. split; [apply HE|].
  destruct a as [i|g']; [|by left]. simpl.
  destruct st as [w ts]. destruct (ts !! i) as [[g' c]|] eqn:Hi.
  2: { rewrite step_call_none by done. by left. }
  rewrite (step_call_lookup _ _ _ _ _ Hi). simpl in *.
  destruct (decide (g' = g)) as [->|Hg].
  2: { left. by apply (get_step_frame Traits i g' c w). }
  destruct c.
  - rewrite get_step_load. by left.
  - rewrite get_step_cas.
    destruct (Z.eqb_spec (instance_ w g) 0) as [H0|H0]; simpl; [|by left].
    right. left. rewrite decide_True by done. rewrite H0.
    split; [done|]. split; [done|]. by exists i.
  - rewrite get_step_new. by left.
  - rewrite get_step_store. simpl. rewrite decide_True by done.
    right. right. split; [by apply (excl_marker _ _ HE i _ Hi)|].
    by exists i.
  - rewrite get_step_wait. by left.
  - by left.
Qed.

Lemma spinlock_discipline_witness :
  (run default_traits [Step 0; Step 1; Step 0; Step 0] (init 0 [7; 7])).2 !! 0
  = Some (mkCall 7 (AtStore 4096%Z))
  /\ instance_
       (run default_traits [Step 0; Step 1; Step 0; Step 0]
          (init 0 [7; 7])).1 7 = kBeingCreatedMarker.
Proof.
  split; [reflexivity|].
  exact (proj1 (proj2
    (spinlock_discipline default_traits 0 [7; 7]
       [Step 0; Step 1; Step 0; Step 0] (Step 0) 7))
    0 (mkCall 7 (AtStore 4096%Z)) eq_refl eq_refl eq_refl).
Defined.

(** ** The books of an instantiation, for every creation policy *)

Lemma new_values_snoc (g : Tag) (tr : list Event) (e : Event) :
  new_values g (tr ++ [e]) = new_values g tr ++ new_values g [e].
Proof.
  induction tr as [|e' tr IH]; simpl; [done|].
  rewrite IH. destruct (ev_op e'); try done.
  by destruct (Nat.eqb (ev_tag e') g).
Qed.

Lemma new_values_foreign (g g' : Tag) (i : nat)
    (tr : list Event) (ops : list Op) :
  g' <> g ->
  new_values g (tr ++ map (mkEvent i g') ops) = new_values g tr.
Proof.
  intros Hg. induction ops as [|o ops IH] using rev_ind.
  - by rewrite app_nil_r.
  - rewrite map_app, app_assoc. simpl. rewrite new_values_snoc, IH.
    apply Nat.eqb_neq in Hg.
    destruct o; simpl; rewrite ?Hg, ?app_nil_r; done.
Qed.

Lemma news_new_values (g : Tag) (tr : list Event) :
  count_ev (is_new g) tr = length (new_values g tr).
Proof.
  induction tr as [|e tr IH]; simpl; [done|].
  unfold is_new at 1. destruct (ev_op e); simpl; try done.
  destruct (Nat.eqb (ev_tag e) g); simpl; lia.
Qed.

Lemma last_in (l : list AtomicWord) (d : AtomicWord) :
  l <> [] -> In (List.last l d) l.
Proof.
  induction l as [|x [|y l] IH]; intros Hne; [done|by left|].
  right. by apply IH.
Qed.

Section Books.

Context {Heap : Type}.
Variable Traits : SingletonTraits Heap.

Local Abbreviation State := (State Heap).

Lemma creator_dec (g : Tag) (ts : list Call) :
  no_creator g ts
  \/ exists j c, ts !! j = Some c /\ call_tag c = g
                 /\ creating (call_pc c) = true.
Proof.
  induction ts as [|c ts IH].
  - left. intros j c Hj. done.
  - destruct (decide (call_tag c = g)) as [Hg|Hg];
      [destruct (creating (call_pc c)) eqn:Hc|].
    + right. by exists 0, c.
    + destruct IH as [Hno|(j & cj & Hj & Hgj & Hcj)].
      * left. intros [|j] cj Hj Hgj; simpl in Hj; [by simplify_eq|].
        by eapply Hno.
      * right. by exists (S j), cj.
    + destruct IH as [Hno|(j & cj & Hj & Hgj & Hcj)].
      * left. intros [|j] cj Hj Hgj; simpl in Hj; [by simplify_eq|].
        by eapply Hno.
      * right. by exists (S j), cj.
Qed.

Lemma ledger_ok_same (g : Tag) (w w' : World Heap) (c : pc) :
  same_on g w w' ->
  new_values g (trace w') = new_values g (trace w) ->
  ledger_ok g w c -> ledger_ok g w' c.
Proof.
  intros [_ _ Hw Hs] Hn. destruct c; simpl; rewrite ?Hw, ?Hs, ?Hn; done.
Qed.

Lemma settled_same (g : Tag) (w w' : World Heap) :
  same_on g w w' ->
  new_values g (trace w') = new_values g (trace w) ->
  settled g w -> settled g w'.
Proof.
  intros [Hi _ Hw Hs] Hn. unfold settled. by rewrite Hi, Hw, Hs, Hn.
Qed.

Lemma init_ledger (g : Tag) (h : Heap) (tags : list Tag) :
  Ledger g (init h tags).
Proof.
  split; simpl.
  - intros i c Hi _. unfold spawn in Hi. rewrite list_lookup_fmap in Hi.
    destruct (tags !! i); simplify_eq/=. done.
  - intros _. by repeat split.
Qed.

(** A step that [g] does not see, by a call that is not creating. *)
Lemma Ledger_quiet (g g' : Tag) (w w' : World Heap) (ts : list Call)
    (i : nat) (c c' : pc) :
  Ledger g (w, ts) ->
  same_on g w w' ->
  new_values g (trace w') = new_values g (trace w) ->
  ts !! i = Some (mkCall g' c) ->
  (g' = g -> creating c = false /\ ledger_ok g w' c') ->
  Ledger g (w', <[i := mkCall g' c']> ts).
Proof.
  intros [Hcalls Hset] Hsame Hn Hi Hc'. simpl in *. split; simpl.
  - intros j cj Hj Hg. apply list_lookup_insert_Some in Hj
      as [(-> & <- & _)|[Hne Hj]]; simpl in *.
    + by apply Hc'.
    + eapply ledger_ok_same; eauto.
  - intros Hno. eapply settled_same; [done..|]. apply Hset.
    intros j cj Hj Hg. destruct (decide (j = i)) as [->|Hne].
    + rewrite Hi in Hj. simplify_eq/=. by apply Hc'.
    + apply (Hno j cj); [|done]. by rewrite list_lookup_insert_ne.
Qed.

(** A step of the only call of [g] that may write. *)
Lemma Ledger_update (g : Tag) (w w' : World Heap) (ts : list Call)
    (i : nat) (c c' : pc) :
  Ledger g (w, ts) ->
  ts !! i = Some (mkCall g c) ->
  (forall j cj, j <> i -> ts !! j = Some cj -> call_tag cj = g ->
     creating (call_pc cj) = false) ->
  (forall p, In p (new_values g (trace w)) ->
             In p (new_values g (trace w'))) ->
  ledger_ok g w' c' ->
  (creating c' = false -> settled g w') ->
  Ledger g (w', <[i := mkCall g c']> ts).
Proof.
  intros [Hcalls Hset] Hi Hsole Hgrow Hc' Hset'. simpl in *. split; simpl.
  - intros j cj Hj Hg. apply list_lookup_insert_Some in Hj
      as [(-> & <- & _)|[Hne Hj]]; simpl in *; [done|].
    pose proof (Hsole j cj ltac:(congruence) Hj Hg) as Hcr.
    pose proof (Hcalls j cj Hj Hg) as Hok.
    destruct (call_pc cj); simpl in *; try done. by apply Hgrow.
  - intros Hno. apply Hset'.
    apply (Hno i (mkCall g c')); [|done].
    apply list_lookup_insert_eq. by eapply lookup_lt_Some.
Qed.

(** The other calls of [g] are not creating when call [i] is, or when the
    lock is free. *)
Lemma Excl_sole (g : Tag) (w : World Heap) (ts : list Call)
    (i : nat) (c : pc) :
  Excl g (w, ts) ->
  ts !! i = Some (mkCall g c) ->
  creating c = true \/ instance_ w g <> kBeingCreatedMarker ->
  forall j cj, j <> i -> ts !! j = Some cj -> call_tag cj = g ->
               creating (call_pc cj) = false.
Proof.
  intros [Hmark Huniq] Hi Hc j cj Hj Hcj Hg. simpl in *.
  destruct (creating (call_pc cj)) eqn:Hcr; [|done].
  exfalso. destruct Hc as [Hc|Hc].
  - apply Hj. by eapply (Huniq j i cj (mkCall g c)).
  - apply Hc. by eapply Hmark.
Qed.

(** A loaded word that holds an address is a pointer [New] returned. *)
Lemma loaded_is_new (g : Tag) (st : State) :
  Excl g st -> Ledger g st ->
  is_created (instance_ st.1 g) = true ->
  In (instance_ st.1 g) (new_values g (trace st.1)).
Proof.
  intros HE HL Hc. destruct (creator_dec g st.2)
    as [Hno|(j & cj & Hj & Hgj & Hcj)].
  - destruct (led_settled _ _ HL Hno) as (Hs & _ & Hw).
    rewrite <- Hs, Hw.
    destruct (stored_values g (trace st.1)) as [|x l] eqn:Hst.
    + rewrite Hw in Hc. rewrite ?Hst in Hc. done.
    + by apply last_in.
  - rewrite (excl_marker _ _ HE j cj Hj Hgj Hcj) in Hc. done.
Qed.

Lemma step_ledger (g : Tag) (i : nat) (st : State) :
  Excl g st -> Ledger g st -> Ledger g (step_call Traits i st).
Proof.
  destruct st as [w ts]. intros HE HL.
  destruct (ts !! i) as [[g' c]|] eqn:Hi; [|by rewrite step_call_none].
  rewrite (step_call_lookup _ _ _ _ _ Hi). simpl call_tag. simpl call_pc.
  destruct (decide (g' = g)) as [->|Hg].
  2: { eapply Ledger_quiet; [exact HL| | |exact Hi|done].
       - by apply get_step_same_on.
       - destruct (get_step_frame Traits i g' c w) as [[ops ->] _].
         by apply new_values_foreign. }
  pose proof (led_calls _ _ HL i _ Hi eq_refl) as Hc. simpl in Hc.
  pose proof (loaded_is_new g (w, ts) HE HL) as Hload. simpl in Hload.
  assert (Hlog : forall o, (forall v, o <> OpNew v) ->
            new_values g (trace w ++ [mkEvent i g o])
            = new_values g (trace w)).
  { intros o Ho. rewrite new_values_snoc. simpl.
    destruct o; rewrite ?app_nil_r; try done. by destruct (Ho newval). }
  destruct c.
  - (* the load of singleton.h:167 *)
    rewrite get_step_load. simpl.
    eapply Ledger_quiet;
      [exact HL|apply log_load_same_on|by apply Hlog|exact Hi|].
    intros _. split; [done|].
    destruct (is_created (instance_ w g)) eqn:Hv; [|done].
    simpl. rewrite Hlog by done. auto.
  - (* the compare-and-swap of singleton.h:173 *)
    rewrite get_step_cas.
    destruct (Z.eqb_spec (instance_ w g) 0) as [H0|H0]; simpl.
    + assert (Hsole : forall j cj, j <> i -> ts !! j = Some cj ->
                call_tag cj = g -> creating (call_pc cj) = false).
      { eapply Excl_sole; [exact HE|exact Hi|]. right. by rewrite H0. }
      assert (Hno : no_creator g ts).
      { intros j cj Hj Hgj. destruct (decide (j = i)) as [->|Hne].
        - rewrite Hi in Hj. by injection Hj as <-.
        - by eapply Hsole. }
      destruct (led_settled _ _ HL Hno) as (Hs & Hw & _). simpl in *.
      eapply Ledger_update; [exact HL|exact Hi|exact Hsole| | |done].
      * simpl. intros p Hp. by rewrite new_values_snoc, app_nil_r.
      * simpl. rewrite stored_values_snoc, new_values_snoc. simpl.
        rewrite !app_nil_r. split; [done|].
        unfold wins in *. simpl. rewrite count_ev_snoc, is_win_mk.
        rewrite Nat.eqb_refl, H0. simpl. lia.
    + eapply Ledger_quiet; [exact HL| |by apply Hlog|exact Hi|done].
      apply log_cas_lost_same_on. by apply Z.eqb_neq.
  - (* Traits::New() of singleton.h:178 *)
    rewrite get_step_new. simpl. destruct Hc as [Hs Hw].
    eapply Ledger_update; [exact HL|exact Hi| | | |done].
    + eapply Excl_sole; [exact HE|exact Hi|by left].
    + simpl. intros p Hp. rewrite new_values_snoc. apply in_or_app. by left.
    + simpl. rewrite stored_values_snoc, new_values_snoc. simpl.
      rewrite Nat.eqb_refl, app_nil_r. split; [by rewrite Hs|].
      unfold wins in *. simpl. rewrite count_ev_snoc, is_win_mk. simpl.
      rewrite length_app. simpl. lia.
  - (* the release-store of singleton.h:181 *)
    rewrite get_step_store. simpl. destruct Hc as [Hn Hw].
    assert (Hst : stored_values g
                    (trace w ++ [mkEvent i g (OpReleaseStore newval)])
                  = new_values g (trace w)).
    { rewrite stored_values_snoc. simpl. by rewrite Nat.eqb_refl, Hn. }
    assert (Hnv : new_values g
                    (trace w ++ [mkEvent i g (OpReleaseStore newval)])
                  = new_values g (trace w)).
    { rewrite new_values_snoc. simpl. by rewrite app_nil_r. }
    eapply Ledger_update; [exact HL|exact Hi| | | |].
    + eapply Excl_sole; [exact HE|exact Hi|by left].
    + simpl. by rewrite Hnv.
    + simpl. rewrite Hnv, Hn. apply in_or_app. right. by left.
    + intros _. unfold settled. simpl. rewrite Hst, Hnv.
      split; [done|]. split.
      * unfold wins in *. simpl. rewrite count_ev_snoc, is_win_mk.
        simpl. lia.
      * rewrite decide_True by done. rewrite Hn. by rewrite List.last_last.
  - (* a turn of the wait loop, singleton.h:191 *)
    rewrite get_step_wait. simpl.
    eapply Ledger_quiet;
      [exact HL|apply log_load_same_on|by apply Hlog|exact Hi|].
    intros _. split; [done|].
    destruct (is_created (instance_ w g)) eqn:Hv; [|done].
    simpl. rewrite Hlog by done. auto.
  - (* returned *)
    simpl. rewrite list_insert_id by done. done.
Qed.

Lemma reachable_ledger (g : Tag) (h : Heap) (tags : list Tag)
    (s : list Action) :
  Excl g (run Traits s (init h tags)) /\ Ledger g (run Traits s (init h tags)).
Proof.
  apply (run_ind Traits (fun st => Excl g st /\ Ledger g st)).
  - intros st a [HE HL]. split; [by apply exec_excl|].
    destruct a as [i|g']; simpl; [by apply step_ledger|by destruct st].
  - split; [apply init_excl|apply init_ledger].
Qed.

End Books.

(** X2.  In every state reached from start-up, whatever [Traits::New()]
    returns: [New] is called only by a call whose compare-and-swap
    succeeded, and its pointer is then stored once.  The release-stores,
    the [New] calls and the successful compare-and-swaps of an
    instantiation are never more than one apart, in this order; when no
    call is between its compare-and-swap and its store (so when all calls
    have returned) the three numbers are equal, the pointers stored are
    the pointers [New] returned, in order, and the word holds the last of
    them, or 0 if there is none. *)
Theorem creation_ledger {Heap : Type} (Traits : SingletonTraits Heap)
    (h : Heap) (tags : list Tag) (sched : list Action) (g : Tag) :
  let st := run Traits sched (init h tags) in
  (length (stored_values g (trace st.1)) <= news g st.1
   /\ news g st.1 <= wins g st.1
   /\ wins g st.1 <= S (length (stored_values g (trace st.1))))
  /\ (no_creator g st.2 ->
      settled g st.1 /\ news g st.1 = wins g st.1)
  /\ (all_returned st.2 = true ->
      settled g st.1 /\ news g st.1 = wins g st.1).
Proof.
  intros st. destruct (reachable_ledger Traits g h tags sched) as [HE HL].
  fold st in HE, HL.
  assert (Hn : news g st.1 = length (new_values g (trace st.1)))
    by apply news_new_values.
  assert (Hquiet : no_creator g st.2 ->
            settled g st.1 /\ news g st.1 = wins g st.1).
  { intros Hno. pose proof (led_settled _ _ HL Hno) as Hs.
    split; [done|]. destruct Hs as (_ & Hw & _). lia. }
  split; [|split; [done|]].
  - destruct (creator_dec g st.2) as [Hno|(j & cj & Hj & Hgj & Hcj)].
    + destruct (Hquiet Hno) as [(Hs & Hw & _) He]. rewrite Hs. lia.
    + pose proof (led_calls _ _ HL j cj Hj Hgj) as Hok.
      destruct (call_pc cj); simpl in *; try done.
      * destruct Hok as [-> ->]. lia.
      * destruct Hok as [Hnv Hw]. rewrite Hw, Hn, Hnv, length_app.
        simpl. lia.
  - intros Hall. apply Hquiet. intros j cj Hj _.
    destruct (all_returned_lookup _ _ _ Hall Hj) as [p ->]. done.
Qed.

Lemma creation_ledger_witness :
  all_returned
    (run null_traits
       [Step 0; Step 1; Step 0; Step 0; Step 0; Step 1; Step 1; Step 1]
       (init 0 [7; 7])).2 = true
  /\ settled 7
       (run null_traits
          [Step 0; Step 1; Step 0; Step 0; Step 0; Step 1; Step 1; Step 1]
          (init 0 [7; 7])).1
  /\ news 7
       (run null_traits
          [Step 0; Step 1; Step 0; Step 0; Step 0; Step 1; Step 1; Step 1]
          (init 0 [7; 7])).1 = 2.
Proof.
  split; [reflexivity|].
  destruct (proj2 (proj2
    (creation_ledger null_traits 0 [7; 7]
       [Step 0; Step 1; Step 0; Step 0; Step 0; Step 1; Step 1; Step 1] 7))
    eq_refl) as [Hs _].
  split; [exact Hs|reflexivity].
Defined.

(** X3.  [get()] hands out nothing of its own making: in every state
    reached from start-up, whatever [Traits::New()] returns, the pointer a
    call has returned is one that [New] returned for that instantiation,
    and so is the word whenever it holds an address. *)
Theorem returned_pointer_is_new {Heap : Type} (Traits : SingletonTraits Heap)
    (h : Heap) (tags : list Tag) (sched : list Action) (g : Tag)
    (i : nat) (p : AtomicWord) :
  let st := run Traits sched (init h tags) in
  (st.2 !! i = Some (mkCall g (Returned p)) ->
   In p (new_values g (trace st.1)))
  /\ (is_created (instance_ st.1 g) = true ->
      In (instance_ st.1 g) (new_values g (trace st.1))).
Proof.
  intros st. destruct (reachable_ledger Traits g h tags sched) as [HE HL].
  fold st in HE, HL. split.
  - intros Hi. apply (led_calls _ _ HL i _ Hi eq_refl).
  - by apply loaded_is_new.
Qed.

Lemma returned_pointer_is_new_witness :
  (run default_traits
     [Step 0; Step 1; Step 0; Step 1; Step 1; Step 0; Step 0; Step 1]
     (init 0 [7; 7])).2 !! 1 = Some (mkCall 7 (Returned 4096%Z))
  /\ In 4096%Z
       (new_values 7
          (trace (run default_traits
             [Step 0; Step 1; Step 0; Step 1; Step 1; Step 0; Step 0; Step 1]
             (init 0 [7; 7])).1)).
Proof.
  split; [reflexivity|].
  exact (proj1
    (returned_pointer_is_new default_traits 0 [7; 7]
       [Step 0; Step 1; Step 0; Step 1; Step 1; Step 0; Step 0; Step 1]
       7 1 4096%Z) eq_refl).
Defined.

(** ** The paths through [get()] *)

Section Shapes.

Context {Heap : Type}.
Variable Traits : SingletonTraits Heap.

Lemma get_step_shape (i : nat) (g : Tag) (c : pc) (w : World Heap) :
  call_shape c (events_of i (trace w)) ->
  call_shape (get_step Traits i g c w).1
             (events_of i (trace (get_step Traits i g c w).2)).
Proof.
  intros Hs. destruct c; simpl in Hs.
  - rewrite get_step_load. simpl fst. simpl snd.
    rewrite events_of_log, Hs. simpl.
    destruct (is_created (instance_ w g)) eqn:Hv; simpl; eauto.
  - destruct Hs as (v & Hv & Hops). rewrite get_step_cas. simpl fst. simpl snd.
    rewrite events_of_log.
    destruct (Z.eqb_spec (instance_ w g) 0) as [H0|H0]; simpl.
    + unfold set_instance. simpl. rewrite Hops, H0. simpl. eauto.
    + rewrite Hops. simpl. exists v, (instance_ w g), []. simpl. eauto.
  - destruct Hs as (v & Hv & Hops). rewrite get_step_new. simpl fst. simpl snd.
    rewrite events_of_log. simpl. rewrite Hops. simpl. eauto.
  - destruct Hs as (v & Hv & Hops). rewrite get_step_store.
    simpl fst. simpl snd. rewrite events_of_log. unfold set_instance. simpl.
    rewrite Hops. simpl. right. left. eauto.
  - destruct Hs as (v & prev & vs & Hv & Hprev & Hops).
    rewrite get_step_wait. simpl fst. simpl snd.
    rewrite events_of_log, Hops.
    destruct (is_created (instance_ w g)) eqn:Hx; simpl.
    + right. right. exists v, prev, vs.
      split; [done|]. split; [done|]. reflexivity.
    + exists v, prev, (vs ++ [instance_ w g]).
      split; [done|]. split; [done|]. by rewrite map_app.
  - done.
Qed.

Lemma reachable_shape (h : Heap) (tags : list Tag) (s : list Action)
    (i : nat) (c : Call) :
  (run Traits s (init h tags)).2 !! i = Some c ->
  call_shape (call_pc c)
             (events_of i (trace (run Traits s (init h tags)).1)).
Proof.
  revert i c.
  apply (run_ind Traits (fun st => forall i c, st.2 !! i = Some c ->
           call_shape (call_pc c) (events_of i (trace st.1)))).
  - intros st [j|g'] IH i c Hi; simpl in *; [|by apply IH].
    destruct (decide (i = j)) as [->|Hne].
    + destruct (st.2 !! j) as [[g0 c0]|] eqn:Hj.
      * destruct (step_call_at Traits j g0 c0 st Hj) as [Hw Hc].
        rewrite Hc in Hi. injection Hi as <-. rewrite Hw. simpl.
        apply get_step_shape. by apply (IH j (mkCall g0 c0)).
      * rewrite step_call_none in * by done. by apply IH.
    + destruct (step_call_other Traits i j st Hne) as [Hc He].
      rewrite He. apply IH. by rewrite <- Hc.
  - intros i c Hi. simpl in *. unfold spawn in Hi.
    rewrite list_lookup_fmap in Hi. destruct (tags !! i); simplify_eq/=.
    done.
Qed.

End Shapes.

(** X4.  The events of one call follow the paths through [get()],
    whatever the other calls and [Traits::New()] do.  A call that has
    returned [p] has made either one acquire-load, of an address [p]; or
    an acquire-load of 0 or the marker, a compare-and-swap that found 0,
    one [New] that returned [p] and one release-store of [p]; or an
    acquire-load of 0 or the marker, a compare-and-swap that found another
    value, and then acquire-loads only, the last of them of [p].  So a
    call makes at most one compare-and-swap, one [New] and one store; it
    calls [New] only after its own compare-and-swap found 0, and the
    pointer it then stores and returns is the one its [New] returned; a
    call that lost its compare-and-swap never calls [New] or stores. *)
Theorem paths_through_get {Heap : Type} (Traits : SingletonTraits Heap)
    (h : Heap) (tags : list Tag) (sched : list Action)
    (i : nat) (g : Tag) (c : pc) (q : AtomicWord) :
  let st := run Traits sched (init h tags) in
  st.2 !! i = Some (mkCall g c) ->
  call_shape c (events_of i (trace st.1))
  /\ (In (OpNew q) (events_of i (trace st.1)) ->
      c = AtStore q
      \/ (c = Returned q
          /\ exists v,
               events_of i (trace st.1)
               = [OpAcquireLoad v;
                  OpAcquireCAS 0%Z kBeingCreatedMarker 0%Z;
                  OpNew q;
                  OpReleaseStore q]))
  /\ (In (OpReleaseStore q) (events_of i (trace st.1)) ->
      c = Returned q /\ In (OpNew q) (events_of i (trace st.1))).
Proof.
  intros st Hi.
  pose proof (reachable_shape Traits h tags sched i _ Hi) as Hs.
  simpl in Hs. fold st in Hs. split; [done|].
  assert (Hloads : forall (o : Op) (vs : list AtomicWord),
            In o (map OpAcquireLoad vs) -> exists v, o = OpAcquireLoad v).
  { intros o vs Hin. apply in_map_iff in Hin as (v & <- & _). by exists v. }
  destruct c; simpl in Hs.
  - rewrite Hs. by split.
  - destruct Hs as (v & _ & ->). by split; intros [?|[]].
  - destruct Hs as (v & _ & ->). by split; intros [?|[?|[]]].
  - destruct Hs as (v & _ & ->). split.
    + intros [?|[?|[Hq|[]]]]; try done. injection Hq as ->. by left.
    + by intros [?|[?|[?|[]]]].
  - destruct Hs as (v & prev & vs & _ & _ & ->). split.
    + intros [?|[?|Hin]]; try done. by destruct (Hloads _ _ Hin).
    + intros [?|[?|Hin]]; try done. by destruct (Hloads _ _ Hin).
  - destruct Hs as [[_ ->]|[(v & _ & Hops)|(v & prev & vs & _ & _ & ->)]].
    + by split; intros [?|[]].
    + rewrite Hops. split.
      * intros [?|[?|[Hq|[?|[]]]]]; try done. injection Hq as ->.
        right. split; [done|]. by exists v.
      * intros [?|[?|[?|[Hq|[]]]]]; try done. injection Hq as ->.
        split; [done|]. right. right. by left.
    + split.
      * intros [?|[?|Hin]]; try done.
        apply in_app_or in Hin as [Hin|[?|[]]]; [|done].
        by destruct (Hloads _ _ Hin).
      * intros [?|[?|Hin]]; try done.
        apply in_app_or in Hin as [Hin|[?|[]]]; [|done].
        by destruct (Hloads _ _ Hin).
Qed.

Lemma paths_through_get_witness :
  (run default_traits [Step 0; Step 1; Step 0; Step 0; Step 0]
     (init 0 [7; 7])).2 !! 0 = Some (mkCall 7 (Returned 4096%Z))
  /\ In (OpReleaseStore 4096%Z)
       (events_of 0
          (trace (run default_traits [Step 0; Step 1; Step 0; Step 0; Step 0]
                    (init 0 [7; 7])).1))
  /\ In (OpNew 4096%Z)
       (events_of 0
          (trace (run default_traits [Step 0; Step 1; Step 0; Step 0; Step 0]
                    (init 0 [7; 7])).1)).
Proof.
  assert (Hs : In (OpReleaseStore 4096%Z)
                 (events_of 0
                    (trace (run default_traits
                              [Step 0; Step 1; Step 0; Step 0; Step 0]
                              (init 0 [7; 7])).1))).
  { vm_compute. tauto. }
  split; [reflexivity|]. split; [exact Hs|].
  exact (proj2 (proj2 (proj2
    (paths_through_get default_traits 0 [7; 7]
       [Step 0; Step 1; Step 0; Step 0; Step 0] 0 7 (Returned 4096%Z)
       4096%Z eq_refl)) Hs)).
Defined.

(** ** One call after the other *)

Section InTurn.

Context {Heap : Type}.
Variable Traits : SingletonTraits Heap.

(** Alone in the wait loop, on a word that holds no address. *)
Lemma get_loop_wait_spins (fuel : nat) (i : nat) (g : Tag) (w : World Heap) :
  is_created (instance_ w g) = false ->
  get_loop Traits fuel i g AtWait w = None.
Proof.
  revert w. induction fuel as [|fuel IH]; intros w Hc; [done|].
  rewrite get_loop_S, get_step_wait by done. rewrite Hc. simpl.
  by apply IH.
Qed.

End InTurn.

(** X5.  Run with no other call moving, [get()] returns exactly when the
    word does not hold the marker: on the marker it loads, fails its
    compare-and-swap and then re-loads for as long as it is run; on 0 it
    returns the pointer [Traits::New()] gives on the current heap; on an
    address it returns that address. *)
Theorem get_alone {Heap : Type} (Traits : SingletonTraits Heap)
    (fuel : nat) (i : nat) (g : Tag) (w : World Heap) :
  (instance_ w g = kBeingCreatedMarker -> get Traits fuel i g w = None)
  /\ (instance_ w g <> kBeingCreatedMarker ->
      exists w',
        get Traits (4 + fuel) i g w
        = Some (if (instance_ w g =? 0)%Z then (New Traits (heap w)).1
                else instance_ w g, w')).
Proof.
  split.
  - intros Hm. unfold get. destruct fuel as [|fuel]; [done|].
    rewrite get_loop_S, get_step_load by done. rewrite Hm. simpl.
    destruct fuel as [|fuel]; [done|].
    rewrite get_loop_S, get_step_cas by done. simpl. rewrite Hm. simpl.
    apply get_loop_wait_spins. simpl. by rewrite Hm.
  - intros Hne. destruct (Z.eqb_spec (instance_ w g) 0) as [H0|H0].
    + destruct (get_uncreated Traits fuel i g w H0) as (w' & Hget & _).
      by exists w'.
    + eexists. apply get_created. by apply is_created_spec.
Qed.

Lemma get_alone_witness :
  instance_ (run default_traits [Step 0; Step 0] (init 0 [7; 7])).1 7
  = kBeingCreatedMarker
  /\ get default_traits 1000 1 7
       (run default_traits [Step 0; Step 0] (init 0 [7; 7])).1 = None
  /\ instance_ (fresh 0) 7 <> kBeingCreatedMarker
  /\ exists w', get default_traits 4 0 7 (fresh 0) = Some (4096%Z, w').
Proof.
  split; [reflexivity|]. split.
  - exact (proj1
      (get_alone default_traits 1000 1 7
         (run default_traits [Step 0; Step 0] (init 0 [7; 7])).1) eq_refl).
  - split; [discriminate|].
    exact (proj2 (get_alone default_traits 0 0 7 (fresh 0))
             ltac:(discriminate)).
Defined.

(** X6.  From a word at 0 and with a [New] that returns an address, [k]
    calls of [get()] one after the other all return the pointer of the one
    [New] call the first of them makes; the word holds it and the heap is
    the one that [New] call left. *)
Theorem get_repeat_fresh {Heap : Type} (Traits : SingletonTraits Heap)
    (fuel k : nat) (i : nat) (g : Tag) (w : World Heap) :
  instance_ w g = 0%Z ->
  is_created (New Traits (heap w)).1 = true ->
  exists w',
    get_repeat Traits (4 + fuel) (S k) i g w
    = Some (replicate (S k) (New Traits (heap w)).1, w')
    /\ news g w' = news g w + 1
    /\ instance_ w' g = (New Traits (heap w)).1
    /\ heap w' = (New Traits (heap w)).2.
Proof.
  intros H0 Hc.
  destruct (get_uncreated Traits fuel i g w H0)
    as (w1 & Hget & Hi1 & _ & Hh1 & _ & Htr).
  rewrite <- Hi1 in Hc.
  destruct (get_repeat_created Traits (3 + fuel) k (S i) g w1 Hc)
    as (w' & Hrep & Hinst & Hh & _ & Hn).
  exists w'. cbn [get_repeat]. rewrite Hget.
  change (4 + fuel) with (S (3 + fuel)). rewrite Hrep, Hi1.
  split; [done|]. rewrite Hn, Hinst, Hh.
  split; [by eapply news_after_create|done].
Qed.

Lemma get_repeat_fresh_witness :
  instance_ (fresh 0) 7 = 0%Z
  /\ is_created (New default_traits (heap (fresh 0))).1 = true
  /\ exists w',
       get_repeat default_traits 4 1000 0 7 (fresh 0)
       = Some (replicate 1000 4096%Z, w')
       /\ news 7 w' = 1.
Proof.
  split; [reflexivity|]. split; [reflexivity|].
  destruct (get_repeat_fresh default_traits 0 999 0 7 (fresh 0)
              eq_refl eq_refl) as (w' & Hrep & Hn & _).
  exists w'. split; [exact Hrep|exact Hn].
Defined.

Lemma heap_after_shift {Heap : Type} (Traits : SingletonTraits Heap)
    (m : nat) (h : Heap) :
  heap_after Traits m (New Traits h).2 = heap_after Traits (S m) h.
Proof.
  induction m as [|m IH]; [done|].
  change (heap_after Traits (S m) (New Traits h).2)
    with (New Traits (heap_after Traits m (New Traits h).2)).2.
  by rewrite IH.
Qed.

(** X7.  A [New] that fails with NULL is tried again by every call.  If
    the next [k] calls of [New] from the current heap return NULL, then
    [k] calls of [get()] one after the other from a word at 0 make those
    [k] calls of [New], all return NULL, and leave the word at 0 and the
    heap as [k] calls of [New] leave it; one more call of [get()] then
    makes the next call of [New], and stores and returns whatever that
    gives. *)
Theorem get_repeat_null {Heap : Type} (Traits : SingletonTraits Heap)
    (fuel k : nat) (i : nat) (g : Tag) (w : World Heap) :
  instance_ w g = 0%Z ->
  (forall m, m < k -> nth_new Traits (heap w) m = 0%Z) ->
  exists wk w',
    get_repeat Traits (4 + fuel) k i g w = Some (replicate k 0%Z, wk)
    /\ news g wk = news g w + k
    /\ instance_ wk g = 0%Z
    /\ heap wk = heap_after Traits k (heap w)
    /\ get Traits (4 + fuel) (i + k) g wk
       = Some (nth_new Traits (heap w) k, w')
    /\ instance_ w' g = nth_new Traits (heap w) k
    /\ heap w' = heap_after Traits (S k) (heap w)
    /\ news g w' = news g w + S k.
Proof.
  revert i w. induction k as [|k IH]; intros i w H0 Hnull.
  - destruct (get_uncreated Traits fuel i g w H0)
      as (w' & Hget & Hi' & _ & Hh' & _ & Htr).
    exists w, w'. replace (i + 0) with i by lia.
    split; [done|]. split; [lia|]. split; [done|]. split; [done|].
    split; [done|]. split; [done|]. split; [done|].
    by eapply news_after_create.
  - destruct (get_uncreated Traits fuel i g w H0)
      as (w1 & Hget & Hi1 & _ & Hh1 & _ & Htr).
    assert (Hfirst : (New Traits (heap w)).1 = 0%Z)
      by (apply (Hnull 0); lia).
    rewrite Hfirst in Hget, Hi1, Htr.
    assert (Hshift : forall m,
              nth_new Traits (heap w1) m = nth_new Traits (heap w) (S m)).
    { intros m. unfold nth_new. by rewrite Hh1, heap_after_shift. }
    destruct (IH (S i) w1 Hi1) as (wk & w' & Hrep & Hn & Hik & Hhk & Hlast
                                   & Hi' & Hh' & Hn').
    { intros m Hm. rewrite Hshift. apply Hnull. lia. }
    pose proof (news_after_create g i 0%Z w w1 Htr) as Hn1.
    exists wk, w'. cbn [get_repeat]. rewrite Hget, Hrep.
    rewrite Hshift in Hlast, Hi'. rewrite Hh1, heap_after_shift in Hhk, Hh'.
    replace (i + S k) with (S i + k) by lia.
    split; [done|]. split; [lia|]. split; [done|]. split; [done|].
    split; [done|]. split; [done|]. split; [done|]. lia.
Qed.

Lemma get_repeat_null_witness :
  instance_ (fresh 0) 7 = 0%Z
  /\ (forall m, m < 2 -> nth_new flaky_traits (heap (fresh 0)) m = 0%Z)
  /\ exists wk w',
       get_repeat flaky_traits 4 2 0 7 (fresh 0) = Some ([0%Z; 0%Z], wk)
       /\ instance_ wk 7 = 0%Z /\ heap wk = 2
       /\ get flaky_traits 4 2 7 wk = Some (4128%Z, w')
       /\ instance_ w' 7 = 4128%Z /\ heap w' = 3
       /\ news 7 w' = 3.
Proof.
  assert (Hnull : forall m, m < 2 ->
            nth_new flaky_traits (heap (fresh 0)) m = 0%Z).
  { intros [|[|m]] Hm; [reflexivity|reflexivity|lia]. }
  split; [reflexivity|]. split; [exact Hnull|].
  destruct (get_repeat_null flaky_traits 0 2 0 7 (fresh 0) eq_refl Hnull)
    as (wk & w' & Hrep & _ & Hik & Hhk & Hlast & Hi' & Hh' & Hn').
  exists wk, w'.
  split; [exact Hrep|]. split; [exact Hik|]. split; [exact Hhk|].
  split; [exact Hlast|]. split; [exact Hi'|]. split; [exact Hh'|exact Hn'].
Defined.

(** ** The heap, and the instances of different instantiations *)

Lemma all_new_values_snoc (tr : list Event) (e : Event) :
  all_new_values (tr ++ [e]) = all_new_values tr ++ all_new_values [e].
Proof.
  induction tr as [|e' tr IH]; simpl; [done|].
  rewrite IH. by destruct (ev_op e').
Qed.

Lemma new_values_sub (g : Tag) (tr : list Event) (p : AtomicWord) :
  In p (new_values g tr) -> In p (all_new_values tr).
Proof.
  induction tr as [|e tr IH]; simpl; [done|].
  destruct (ev_op e); auto.
  destruct (Nat.eqb (ev_tag e) g); simpl; intuition.
Qed.

(** Pointers of different instantiations come from different calls of
    [New]. *)
Lemma new_values_apart (g1 g2 : Tag) (tr : list Event) (p q : AtomicWord) :
  List.NoDup (all_new_values tr) -> g1 <> g2 ->
  In p (new_values g1 tr) -> In q (new_values g2 tr) -> p <> q.
Proof.
  intros Hnd Hg. induction tr as [|e tr IH]; simpl in *; [done|].
  destruct (ev_op e) eqn:He; auto.
  apply List.NoDup_cons_iff in Hnd as [Hnotin Hnd].
  destruct (Nat.eqb_spec (ev_tag e) g1) as [H1|H1];
    destruct (Nat.eqb_spec (ev_tag e) g2) as [H2|H2]; simpl.
  - congruence.
  - intros [<-|Hp] Hq; [|by apply IH].
    intros <-. by apply Hnotin, (new_values_sub g2).
  - intros Hp [<-|Hq]; [|by apply IH].
    intros ->. by apply Hnotin, (new_values_sub g1).
  - by apply IH.
Qed.

Section HeapBooks.

Context {Heap : Type}.
Variable Traits : SingletonTraits Heap.

(** A step either leaves the heap and the list of [New] results alone, or
    is a call of [New] on the current heap. *)
Lemma get_step_heap (i : nat) (g : Tag) (c : pc) (w : World Heap) :
  let w' := (get_step Traits i g c w).2 in
  (heap w' = heap w
   /\ all_new_values (trace w') = all_new_values (trace w))
  \/ (heap w' = (New Traits (heap w)).2
      /\ all_new_values (trace w')
         = all_new_values (trace w) ++ [(New Traits (heap w)).1]).
Proof.
  destruct c.
  - rewrite get_step_load. left. simpl.
    by rewrite all_new_values_snoc, app_nil_r.
  - rewrite get_step_cas. left. simpl.
    rewrite all_new_values_snoc, app_nil_r.
    by destruct (instance_ w g =? 0)%Z.
  - rewrite get_step_new. right. simpl. by rewrite all_new_values_snoc.
  - rewrite get_step_store. left. simpl.
    by rewrite all_new_values_snoc, app_nil_r.
  - rewrite get_step_wait. left. simpl.
    by rewrite all_new_values_snoc, app_nil_r.
  - by left.
Qed.

Lemma reachable_heap (h : Heap) (tags : list Tag) (s : list Action) :
  let st := run Traits s (init h tags) in
  let n := length (all_new_values (trace st.1)) in
  heap st.1 = heap_after Traits n h
  /\ all_new_values (trace st.1) = map (nth_new Traits h) (seq 0 n).
Proof.
  apply (run_ind Traits (fun st =>
    heap st.1
    = heap_after Traits (length (all_new_values (trace st.1))) h
    /\ all_new_values (trace st.1)
       = map (nth_new Traits h)
             (seq 0 (length (all_new_values (trace st.1)))))); [|done].
  intros [w ts] [i|g'] [IHh IHv]; simpl in *; [|done].
  destruct (ts !! i) as [c|] eqn:Hi; [|by rewrite step_call_none].
  rewrite (step_call_lookup _ _ _ _ _ Hi). simpl.
  destruct (get_step_heap i (call_tag c) (call_pc c) w)
    as [[-> ->]|[-> ->]]; [done|].
  rewrite length_app. simpl. rewrite Nat.add_1_r, seq_S, map_app. simpl.
  rewrite <- IHv. unfold nth_new. rewrite <- IHh. done.
Qed.

Lemma never_repeats_NoDup (h : Heap) (n : nat) :
  never_repeats Traits h ->
  List.NoDup (map (nth_new Traits h) (seq 0 n)).
Proof.
  intros Hnr. apply Finite.Injective_map_NoDup; [|apply List.seq_NoDup].
  intros j k Hjk. destruct (decide (j = k)) as [|Hne]; [done|].
  by destruct (Hnr j k Hne).
Qed.

End HeapBooks.

(** X8.  The heap is touched only by [Traits::New()]: after any schedule
    the heap is the start heap after exactly the [New] calls the trace
    records, the k-th of them returned what [New] returns on the heap the
    first k left, and [Traits::Delete] was never called, whatever the
    creation policy. *)
Theorem heap_only_through_New {Heap : Type} (Traits : SingletonTraits Heap)
    (h : Heap) (tags : list Tag) (sched : list Action) :
  let st := run Traits sched (init h tags) in
  let n := length (all_new_values (trace st.1)) in
  heap st.1 = heap_after Traits n h
  /\ all_new_values (trace st.1) = map (nth_new Traits h) (seq 0 n)
  /\ count_ev is_delete (trace st.1) = 0.
Proof.
  intros st n. destruct (reachable_heap Traits h tags sched) as [Hh Hv].
  split; [done|]. split; [done|].
  unfold st. by destruct (run_registry Traits sched (init h tags)) as [_ ->].
Qed.

(** X9.  When [Traits::New()] never returns an address twice, two
    instantiations never share an instance, however their calls race:
    pointers returned by calls on different tags differ, and so do the two
    words once both hold an address. *)
Theorem distinct_instances {Heap : Type} (Traits : SingletonTraits Heap)
    (h : Heap) (tags : list Tag) (sched : list Action)
    (g1 g2 : Tag) (i j : nat) (p q : AtomicWord) :
  never_repeats Traits h -> g1 <> g2 ->
  let st := run Traits sched (init h tags) in
  (st.2 !! i = Some (mkCall g1 (Returned p)) ->
   st.2 !! j = Some (mkCall g2 (Returned q)) -> p <> q)
  /\ (is_created (instance_ st.1 g1) = true ->
      is_created (instance_ st.1 g2) = true ->
      instance_ st.1 g1 <> instance_ st.1 g2).
Proof.
  intros Hnr Hg st.
  destruct (reachable_ledger Traits g1 h tags sched) as [HE1 HL1].
  destruct (reachable_ledger Traits g2 h tags sched) as [HE2 HL2].
  destruct (reachable_heap Traits h tags sched) as [_ Hv].
  fold st in HE1, HL1, HE2, HL2, Hv.
  assert (Hnd : List.NoDup (all_new_values (trace st.1))).
  { rewrite Hv. by apply never_repeats_NoDup. }
  split.
  - intros Hi Hj. eapply new_values_apart; [exact Hnd|exact Hg|..].
    + apply (led_calls _ _ HL1 i _ Hi eq_refl).
    + apply (led_calls _ _ HL2 j _ Hj eq_refl).
  - intros H1 H2. eapply new_values_apart; [exact Hnd|exact Hg|..].
    + by apply loaded_is_new.
    + by apply loaded_is_new.
Qed.

Lemma bump_heap_after (k h : nat) : heap_after default_traits k h = k + h.
Proof. induction k as [|k IH]; simpl; [done|]. by rewrite IH. Qed.

Lemma distinct_instances_witness :
  never_repeats default_traits 0
  /\ 7 <> 8
  /\ (run default_traits
        [Step 1; Step 0; Step 1; Step 0; Step 0; Step 1; Step 0; Step 1]
        (init 0 [7; 8])).2 !! 0 = Some (mkCall 7 (Returned 4096%Z))
  /\ (run default_traits
        [Step 1; Step 0; Step 1; Step 0; Step 0; Step 1; Step 0; Step 1]
        (init 0 [7; 8])).2 !! 1 = Some (mkCall 8 (Returned 4112%Z))
  /\ 4096%Z <> 4112%Z.
Proof.
  assert (Hnr : never_repeats default_traits 0).
  { intros j k Hne. unfold nth_new. rewrite !bump_heap_after. simpl. lia. }
  split; [exact Hnr|]. split; [discriminate|].
  split; [reflexivity|]. split; [reflexivity|].
  exact (proj1
    (distinct_instances default_traits 0 [7; 8]
       [Step 1; Step 0; Step 1; Step 0; Step 0; Step 1; Step 0; Step 1]
       7 8 0 1 4096%Z 4112%Z Hnr ltac:(discriminate)) eq_refl eq_refl).
Defined.
